(** * Round-robin order dispatcher: a shallow embedding of [scheduler.py]

    The Python module defines a fixed-capacity circular FIFO ([QueueRR]) and a
    multi-queue round-robin dispatcher ([Scheduler]).  Python integers are
    modelled by [Z], dictionaries by [gmap], lists by [list], exceptions by an
    error monad, and the unbounded [while True] loop of [run] by a fuelled
    fixpoint. *)

From Stdlib Require Import ZArith Lia Ascii.
From stdpp Require Import base gmap strings list fin_maps pretty sorting.

Local Open Scope Z_scope.

(** ** Python exceptions and the primitives that raise them *)

Inductive exn : Type :=
| AssertionError
| KeyError
| IndexError
| AttributeError
| ZeroDivisionError.

(** The outcome of a call: a value, a raised exception, or (only for the
    fuelled loop) an exhausted fuel budget. *)
Inductive result (A : Type) : Type :=
| Ok (a : A)
| Raise (e : exn)
| OutOfFuel.
Arguments Ok {A} a.
Arguments Raise {A} e.
Arguments OutOfFuel {A}.

Definition bind {A B : Type} (m : result A) (k : A → result B) : result B :=
  match m with
  | Ok a => k a
  | Raise e => Raise e
  | OutOfFuel => OutOfFuel
  end.

Notation "'let*' p ':=' c1 'in' c2" := (bind c1 (λ p, c2))
  (at level 10, p pattern, c1 at level 100, c2 at level 200).

(** [a % b] on Python integers: floor modulo, [ZeroDivisionError] for [b = 0]. *)
Definition py_mod (a b : Z) : result Z :=
  if b =? 0 then Raise ZeroDivisionError else Ok (a `mod` b).

(** Normalisation of a list index: negative indices count from the end,
    anything still out of range is an [IndexError]. *)
Definition py_index (len i : Z) : result nat :=
  let j := if i <? 0 then i + len else i in
  if (0 <=? j) && (j <? len) then Ok (Z.to_nat j) else Raise IndexError.

(** [l[i]] *)
Definition py_getitem {A : Type} (l : list A) (i : Z) : result A :=
  let* j := py_index (Z.of_nat (length l)) i in
  match l !! j with
  | Some x => Ok x
  | None => Raise IndexError
  end.

(** [l[i] = x] *)
Definition py_setitem {A : Type} (l : list A) (i : Z) (x : A) : result (list A) :=
  let* j := py_index (Z.of_nat (length l)) i in
  Ok (<[j := x]> l).

(** [d[k]] *)
Definition dict_getitem {V : Type} (d : gmap string V) (k : string) : result V :=
  match d !! k with
  | Some v => Ok v
  | None => Raise KeyError
  end.

(** [f"{z:03d}"]: sign-aware zero padding to a total width of three. *)
Fixpoint zeros (n : nat) : string :=
  match n with
  | O => ""
  | S n' => String "0"%char (zeros n')
  end.

Definition zfill (width : nat) (s : string) : string :=
  zeros (width - String.length s) +:+ s.

Definition format_03d (z : Z) : string :=
  if z <? 0 then "-" +:+ zfill 2 (pretty (- z)) else zfill 3 (pretty z).

(** [sep.join(l)] *)
Fixpoint join (sep : string) (l : list string) : string :=
  match l with
  | [] => ""
  | [x] => x
  | x :: l' => x +:+ sep +:+ join sep l'
  end.

(** ** The menu *)

Definition REQUIRED_MENU : gmap string Z :=
  <["americano" := 2]> (<["latte" := 3]> (<["cappuccino" := 3]> (<["mocha" := 4]>
  (<["tea" := 1]> (<["macchiato" := 2]> (<["hot_chocolate" := 4]> ∅)))))).

(** ** Tasks *)

Record Task : Type := mkTask { task_id : string; remaining : Z }.

Definition Task_set_remaining (t : Task) (r : Z) : Task :=
  {| task_id := task_id t; remaining := r |}.

(** ** Log lines

    Every line the dispatcher returns is one of the f-strings below; the
    operations build the structured line and [render] gives its text. *)

Inductive reject_reason : Type := unknown_item | unknown_queue | full.
Inductive error_reason : Type := invalid_steps.

Inductive LogLine : Type :=
| EvCreate (time : Z) (queue : string)
| EvEnqueue (time : Z) (queue task : string) (remaining : Z)
| EvReject (time : Z) (queue : string) (reason : reject_reason)
| EvSkip (time : Z) (queue : string)
| EvRun (time : Z) (queue : string)
| EvWork (time : Z) (queue id : string) (remaining : Z)
| EvFinish (time : Z) (queue id : string)
| EvError (time : Z) (reason : error_reason)
| DisplayHead (time : Z) (next : option string)
| DisplayMenu (items : list (string * Z))
| DisplayQueue (queue : string) (size capacity : Z) (skip : bool)
    (tasks : list (string * Z)).

Definition render_reject (r : reject_reason) : string :=
  match r with
  | unknown_item => "unknown_item"
  | unknown_queue => "unknown_queue"
  | full => "full"
  end.

Definition render_pair (kv : string * Z) : string :=
  kv.1 +:+ ":" +:+ pretty kv.2.

Definition render (l : LogLine) : string :=
  match l with
  | EvCreate t q => "time=" +:+ pretty t +:+ " event=create queue=" +:+ q
  | EvEnqueue t q tid r =>
      "time=" +:+ pretty t +:+ " event=enqueue queue=" +:+ q +:+ " task=" +:+ tid
        +:+ " remaining=" +:+ pretty r
  | EvReject t q r =>
      "time=" +:+ pretty t +:+ " event=reject queue=" +:+ q +:+ " reason="
        +:+ render_reject r
  | EvSkip t q => "time=" +:+ pretty t +:+ " event=skip queue=" +:+ q
  | EvRun t q => "time=" +:+ pretty t +:+ " event=run queue=" +:+ q
  | EvWork t q tid r =>
      "time=" +:+ pretty t +:+ " event=work queue=" +:+ q +:+ " id=" +:+ tid
        +:+ " remaining=" +:+ pretty r
  | EvFinish t q tid =>
      "time=" +:+ pretty t +:+ " event=finish queue=" +:+ q +:+ " id=" +:+ tid
  | EvError t invalid_steps =>
      "time=" +:+ pretty t +:+ " event=error reason=invalid_steps"
  | DisplayHead t nxt =>
      "display time=" +:+ pretty t +:+ " next=" +:+ default "None" nxt
  | DisplayMenu items =>
      "display menu=[" +:+ join "," (render_pair <$> items) +:+ "]"
  | DisplayQueue q sz cap skip tasks =>
      "display " +:+ q +:+ " [" +:+ pretty sz +:+ "/" +:+ pretty cap +:+ "]"
        +:+ (if skip then " skip" else "") +:+ " -> ["
        +:+ join "," (render_pair <$> tasks) +:+ "]"
  end.

(** ** [class QueueRR]: the circular buffer *)

Module QueueRR.

Record t : Type := mk {
  queue_id : string;
  capacity : Z;
  _buf : list (option Task);
  _front : Z;
  _size : Z
}.

Definition set_buf (q : t) (b : list (option Task)) : t :=
  {| queue_id := queue_id q; capacity := capacity q; _buf := b;
     _front := _front q; _size := _size q |}.
Definition set_front (q : t) (f : Z) : t :=
  {| queue_id := queue_id q; capacity := capacity q; _buf := _buf q;
     _front := f; _size := _size q |}.
Definition set_size (q : t) (n : Z) : t :=
  {| queue_id := queue_id q; capacity := capacity q; _buf := _buf q;
     _front := _front q; _size := n |}.

(** [__init__]: [assert capacity > 0], then an all-[None] buffer. *)
Definition init (queue_id : string) (capacity : Z) : result t :=
  if capacity >? 0 then
    Ok {| queue_id := queue_id; capacity := capacity;
          _buf := replicate (Z.to_nat capacity) None;
          _front := 0; _size := 0 |}
  else Raise AssertionError.

Definition enqueue (q : t) (task : Task) : result (bool * t) :=
  if _size q >=? capacity q then Ok (false, q)
  else
    let* idx := py_mod (_front q + _size q) (capacity q) in
    let* b := py_setitem (_buf q) idx (Some task) in
    let q := set_buf q b in
    let q := set_size q (_size q + 1) in
    Ok (true, q).

Definition dequeue (q : t) : result (option Task * t) :=
  if _size q =? 0 then Ok (None, q)
  else
    let* t := py_getitem (_buf q) (_front q) in
    let* b := py_setitem (_buf q) (_front q) None in
    let q := set_buf q b in
    let* f := py_mod (_front q + 1) (capacity q) in
    let q := set_front q f in
    let q := set_size q (_size q - 1) in
    Ok (t, q).

Definition peek (q : t) : result (option Task) :=
  if _size q =? 0 then Ok None
  else py_getitem (_buf q) (_front q).

(** [__len__] *)
Definition len (q : t) : Z := _size q.

(** [tasks_list]: the body of [for _ in range(self._size)], run [n] times
    from index [idx] with the tasks collected so far in [out]. *)
Fixpoint tasks_loop (q : t) (n : nat) (idx : Z) (out : list Task)
  : result (list Task) :=
  match n with
  | O => Ok out
  | S n' =>
      let* t := py_getitem (_buf q) idx in
      let out := match t with Some t => out ++ [t] | None => out end in
      let* idx := py_mod (idx + 1) (capacity q) in
      tasks_loop q n' idx out
  end.

Definition tasks_list (q : t) : result (list Task) :=
  tasks_loop q (Z.to_nat (_size q)) (_front q) [].

End QueueRR.

(** ** [class Scheduler]: the dispatcher *)

Module Scheduler.

Record t : Type := mk {
  time : Z;
  queues : gmap string QueueRR.t;
  queue_order : list string;
  id_counters : gmap string Z;
  skip_flags : gmap string bool;
  rr_index : Z;
  _menu : gmap string Z
}.

Definition set_time (s : t) (v : Z) : t :=
  {| time := v; queues := queues s; queue_order := queue_order s;
     id_counters := id_counters s; skip_flags := skip_flags s;
     rr_index := rr_index s; _menu := _menu s |}.
Definition set_queues (s : t) (v : gmap string QueueRR.t) : t :=
  {| time := time s; queues := v; queue_order := queue_order s;
     id_counters := id_counters s; skip_flags := skip_flags s;
     rr_index := rr_index s; _menu := _menu s |}.
Definition set_queue_order (s : t) (v : list string) : t :=
  {| time := time s; queues := queues s; queue_order := v;
     id_counters := id_counters s; skip_flags := skip_flags s;
     rr_index := rr_index s; _menu := _menu s |}.
Definition set_id_counters (s : t) (v : gmap string Z) : t :=
  {| time := time s; queues := queues s; queue_order := queue_order s;
     id_counters := v; skip_flags := skip_flags s;
     rr_index := rr_index s; _menu := _menu s |}.
Definition set_skip_flags (s : t) (v : gmap string bool) : t :=
  {| time := time s; queues := queues s; queue_order := queue_order s;
     id_counters := id_counters s; skip_flags := v;
     rr_index := rr_index s; _menu := _menu s |}.
Definition set_rr_index (s : t) (v : Z) : t :=
  {| time := time s; queues := queues s; queue_order := queue_order s;
     id_counters := id_counters s; skip_flags := skip_flags s;
     rr_index := v; _menu := _menu s |}.

(** [__init__] *)
Definition init : t :=
  {| time := 0; queues := ∅; queue_order := []; id_counters := ∅;
     skip_flags := ∅; rr_index := 0; _menu := REQUIRED_MENU |}.

(** [menu] *)
Definition menu (s : t) : gmap string Z := _menu s.

(** [len(self.queue_order)] *)
Definition n_queues (s : t) : Z := Z.of_nat (length (queue_order s)).

(** [next_queue]: normalises [rr_index] in place before reading it. *)
Definition next_queue (s : t) : result (option string * t) :=
  match queue_order s with
  | [] => Ok (None, s)
  | _ :: _ =>
      let s := if rr_index s <? 0 then set_rr_index s 0 else s in
      let* s :=
        if rr_index s >=? n_queues s then
          let* r := py_mod (rr_index s) (n_queues s) in Ok (set_rr_index s r)
        else Ok s in
      let* qid := py_getitem (queue_order s) (rr_index s) in
      Ok (Some qid, s)
  end.

(** [create_queue] *)
Definition create_queue (queue_id : string) (capacity : Z) (s : t)
  : result (t * list LogLine) :=
  let* q := QueueRR.init queue_id capacity in
  let s := set_queues s (<[queue_id := q]> (queues s)) in
  let s := set_queue_order s (queue_order s ++ [queue_id]) in
  let s := set_id_counters s (<[queue_id := 0]> (id_counters s)) in
  let s := set_skip_flags s (<[queue_id := false]> (skip_flags s)) in
  Ok (s, [EvCreate (time s) queue_id]).

(** [enqueue]: the third component is what the call prints on standard
    output. *)
Definition enqueue (queue_id item_name : string) (s : t)
  : result (t * list LogLine * list string) :=
  match _menu s !! item_name with
  | None =>
      Ok (s, [EvReject (time s) queue_id unknown_item],
          ["Sorry, we don't serve that."])
  | Some burst =>
      match queues s !! queue_id with
      | None => Ok (s, [EvReject (time s) queue_id unknown_queue], [])
      | Some _ =>
          let* c := dict_getitem (id_counters s) queue_id in
          let s := set_id_counters s (<[queue_id := c + 1]> (id_counters s)) in
          let* c := dict_getitem (id_counters s) queue_id in
          let tid := queue_id +:+ "-" +:+ format_03d c in
          let task := {| task_id := tid; remaining := burst |} in
          let* q := dict_getitem (queues s) queue_id in
          let* (ok, q) := QueueRR.enqueue q task in
          (* [q] is the object stored in [self.queues]: its mutation is
             visible there *)
          let s := set_queues s (<[queue_id := q]> (queues s)) in
          if negb ok then
            Ok (s, [EvReject (time s) queue_id full],
                ["Sorry, we're at capacity."])
          else
            Ok (s, [EvEnqueue (time s) queue_id tid burst], [])
      end
  end.

(** [mark_skip] *)
Definition mark_skip (queue_id : string) (s : t) : result (t * list LogLine) :=
  let logs := [EvSkip (time s) queue_id] in
  match skip_flags s !! queue_id with
  | Some _ => Ok (set_skip_flags s (<[queue_id := true]> (skip_flags s)), logs)
  | None => Ok (s, logs)
  end.

(** [sorted(self._menu.items())] *)
Definition item_le (a b : string * Z) : Prop := String.leb a.1 b.1.

Definition sorted_menu (m : gmap string Z) : list (string * Z) :=
  merge_sort item_le (map_to_list m).

(** The [for qid in self.queue_order] loop of [display]. *)
Fixpoint display_queues (s : t) (order : list string) : result (list LogLine) :=
  match order with
  | [] => Ok []
  | qid :: order' =>
      let* q := dict_getitem (queues s) qid in
      let skip := default false (skip_flags s !! qid) in
      let* tasks := QueueRR.tasks_list q in
      let line :=
        DisplayQueue qid (QueueRR.len q) (QueueRR.capacity q) skip
          ((λ t, (task_id t, remaining t)) <$> tasks) in
      let* lines := display_queues s order' in
      Ok (line :: lines)
  end.

(** [display] *)
Definition display (s : t) : result (t * list LogLine) :=
  let* (nxt, s) := next_queue s in
  let* lines := display_queues s (queue_order s) in
  Ok (s, DisplayHead (time s) nxt :: DisplayMenu (sorted_menu (_menu s)) :: lines).

(** [all(len(self.queues[qx]) == 0 for qx in self.queue_order)] *)
Fixpoint all_empty_from (s : t) (order : list string) : result bool :=
  match order with
  | [] => Ok true
  | qx :: order' =>
      let* q := dict_getitem (queues s) qx in
      if QueueRR.len q =? 0 then all_empty_from s order' else Ok false
  end.

Definition all_empty (s : t) : result bool := all_empty_from s (queue_order s).

(** [all(not v for v in self.skip_flags.values())] *)
Definition all_clear (s : t) : bool :=
  forallb negb ((map_to_list (skip_flags s)).*2).

(** The run-until-quiescent stop test: [all_empty and all_clear]. *)
Definition quiescent (s : t) : result bool :=
  let* e := all_empty s in
  Ok (e && all_clear s).

(** One iteration of the [while True] loop of [run], from the recomputation
    of [n_queues] down to the point where [turns_done] is incremented. *)
Definition turn (quantum : Z) (s : t) : result (t * list LogLine) :=
  let n_queues := n_queues s in
  let* s :=
    if rr_index s >=? n_queues then
      let* r := py_mod (rr_index s) n_queues in Ok (set_rr_index s r)
    else Ok s in
  let* qid := py_getitem (queue_order s) (rr_index s) in
  let* q := dict_getitem (queues s) qid in
  let logs := [EvRun (time s) qid] in
  if default false (skip_flags s !! qid) then
    (* SKIP *)
    let s := set_skip_flags s (<[qid := false]> (skip_flags s)) in
    let* (s, d) := display s in
    let logs := logs ++ d in
    let* r := py_mod (rr_index s + 1) n_queues in
    let s := set_rr_index s r in
    Ok (s, logs)
  else if QueueRR.len q =? 0 then
    (* EMPTY *)
    let* (s, d) := display s in
    let logs := logs ++ d in
    let* r := py_mod (rr_index s + 1) n_queues in
    let s := set_rr_index s r in
    Ok (s, logs)
  else
    (* WORK *)
    let* front_task := QueueRR.peek q in
    match front_task with
    | None => Raise AssertionError
    | Some front_task =>
        let work_amount := Z.min quantum (remaining front_task) in
        (* [front_task] is the object in [q._buf[q._front]]: the update of
           its [remaining] field is an update of that slot *)
        let front_task :=
          Task_set_remaining front_task (remaining front_task - work_amount) in
        let* b := py_setitem (QueueRR._buf q) (QueueRR._front q) (Some front_task) in
        let q := QueueRR.set_buf q b in
        let s := set_queues s (<[qid := q]> (queues s)) in
        let s := set_time s (time s + work_amount) in
        let* (s, logs) :=
          if remaining front_task =? 0 then
            let* (finished, q) := QueueRR.dequeue q in
            let s := set_queues s (<[qid := q]> (queues s)) in
            match finished with
            | None => Raise AttributeError
            | Some finished =>
                Ok (s, logs ++ [EvFinish (time s) qid (task_id finished)])
            end
          else
            let* (t, q) := QueueRR.dequeue q in
            let s := set_queues s (<[qid := q]> (queues s)) in
            match t with
            | None => Raise AssertionError
            | Some t =>
                let* (success, q) := QueueRR.enqueue q t in
                let s := set_queues s (<[qid := q]> (queues s)) in
                if negb success then
                  Ok (s, logs ++ [EvFinish (time s) qid (task_id t)])
                else
                  Ok (s, logs ++ [EvWork (time s) qid (task_id t) (remaining t)])
            end in
        let* r := py_mod (rr_index s + 1) n_queues in
        let s := set_rr_index s r in
        let* (s, d) := display s in
        let logs := logs ++ d in
        Ok (s, logs)
    end.

(** The [while True] loop.  Each of the three branches of the source ends
    with the same [turns_done += 1] and the same quiescence test; they are
    written once, after [turn]. *)
Fixpoint run_loop (fuel : nat) (quantum : Z) (max_turns : option Z)
    (turns_done : Z) (s : t) (logs : list LogLine) : result (t * list LogLine) :=
  match fuel with
  | O => OutOfFuel
  | S fuel' =>
      if match max_turns with Some m => turns_done >=? m | None => false end
      then Ok (s, logs)
      else if n_queues s =? 0 then Ok (s, logs)
      else
        let* (s, l) := turn quantum s in
        let logs := logs ++ l in
        let turns_done := turns_done + 1 in
        match max_turns with
        | None =>
            let* stop := quiescent s in
            if stop then Ok (s, logs)
            else run_loop fuel' quantum max_turns turns_done s logs
        | Some _ => run_loop fuel' quantum max_turns turns_done s logs
        end
  end.

(** [run] *)
Definition run (fuel : nat) (quantum : Z) (steps : option Z) (s : t)
  : result (t * list LogLine) :=
  let n_queues := n_queues s in
  if n_queues =? 0 then Ok (s, [])
  else
    let invalid :=
      match steps with
      | Some st => negb ((1 <=? st) && (st <=? n_queues))
      | None => false
      end in
    if invalid then Ok (s, [EvError (time s) invalid_steps])
    else
      let max_turns := steps in
      let* s :=
        if rr_index s >=? n_queues then
          let* r := py_mod (rr_index s) n_queues in Ok (set_rr_index s r)
        else Ok s in
      run_loop fuel quantum max_turns 0 s [].

End Scheduler.

(** ** Sessions: sequences of dispatcher calls *)

Inductive op : Type :=
| OpCreate (queue_id : string) (capacity : Z)
| OpEnqueue (queue_id item_name : string)
| OpSkip (queue_id : string)
| OpRun (quantum : Z) (steps : option Z)
| OpDisplay.

(** One call; [fuel] bounds the loop of [run]. *)
Definition exec (fuel : nat) (o : op) (s : Scheduler.t)
  : result (Scheduler.t * list LogLine) :=
  match o with
  | OpCreate qid cap => Scheduler.create_queue qid cap s
  | OpEnqueue qid item =>
      let* (s, logs, _) := Scheduler.enqueue qid item s in Ok (s, logs)
  | OpSkip qid => Scheduler.mark_skip qid s
  | OpRun quantum steps => Scheduler.run fuel quantum steps s
  | OpDisplay => Scheduler.display s
  end.

(** A session, left to right, with the lines it logs. *)
Fixpoint exec_all (fuel : nat) (os : list op) (s : Scheduler.t)
  : result (Scheduler.t * list LogLine) :=
  match os with
  | [] => Ok (s, [])
  | o :: os' =>
      let* (s, l) := exec fuel o s in
      let* (s, l') := exec_all fuel os' s in
      Ok (s, l ++ l')
  end.

(** States reachable from a fresh dispatcher by calls that return and whose
    arguments satisfy [P]. *)
Inductive reachable_by (P : op → Prop) : Scheduler.t → Prop :=
| reach_init : reachable_by P Scheduler.init
| reach_step s o fuel s' logs :
    reachable_by P s → P o → exec fuel o s = Ok (s', logs) →
    reachable_by P s'.

Definition reachable : Scheduler.t → Prop := reachable_by (λ _, True).


(** ** [cli.py]: the line-oriented driver

    [parse_command] lives in a module that is not part of the sources and
    [int] is a Python builtin: both are parameters of the model, [py_int]
    returning [None] where [int] raises [ValueError]. *)

Module Cli.

Definition bad_args : string := "time=? event=error reason=bad_args".
Definition unknown_command : string :=
  "time=? event=error reason=unknown_command".

(** [raw.rstrip("\n")] *)
Fixpoint rstrip_nl (s : string) : string :=
  match s with
  | EmptyString => EmptyString
  | String c s' =>
      match rstrip_nl s' with
      | EmptyString =>
          if Ascii.eqb c "010"%char then EmptyString else String c EmptyString
      | r => String c r
      end
  end.

(** The [try] block of [main] for one parsed command: the new dispatcher,
    the lines collected in [logs], and what the dispatcher printed itself.
    A [ValueError] of [int] is caught and turned into the bad_args line; it
    can only be raised before the dispatcher is called. *)
Definition dispatch (py_int : string → option Z) (fuel : nat)
    (cmd : string) (args : list string) (sched : Scheduler.t)
  : result (Scheduler.t * list string * list string) :=
  if String.eqb cmd "CREATE" then
    match args with
    | [qid; cap_str] =>
        match py_int cap_str with
        | None => Ok (sched, [bad_args], [])
        | Some cap =>
            let* (sched, logs) := Scheduler.create_queue qid cap sched in
            Ok (sched, render <$> logs, [])
        end
    | _ => Ok (sched, [bad_args], [])
    end
  else if String.eqb cmd "ENQ" then
    match args with
    | [qid; item] =>
        let* (sched, logs, out) := Scheduler.enqueue qid item sched in
        Ok (sched, render <$> logs, out)
    | _ => Ok (sched, [bad_args], [])
    end
  else if String.eqb cmd "SKIP" then
    match args with
    | [qid] =>
        let* (sched, logs) := Scheduler.mark_skip qid sched in
        Ok (sched, render <$> logs, [])
    | _ => Ok (sched, [bad_args], [])
    end
  else if String.eqb cmd "RUN" then
    match args with
    | [q] =>
        match py_int q with
        | None => Ok (sched, [bad_args], [])
        | Some quantum =>
            let* (sched, logs) := Scheduler.run fuel quantum None sched in
            Ok (sched, render <$> logs, [])
        end
    | [q; st] =>
        match py_int q with
        | None => Ok (sched, [bad_args], [])
        | Some quantum =>
            match py_int st with
            | None => Ok (sched, [bad_args], [])
            | Some steps =>
                let* (sched, logs) :=
                  Scheduler.run fuel quantum (Some steps) sched in
                Ok (sched, render <$> logs, [])
            end
        end
    | _ => Ok (sched, [bad_args], [])
    end
  else Ok (sched, [unknown_command], []).

(** The [for raw in sys.stdin] loop: [stdout] collects the arguments of the
    [print] calls, in order. *)
Fixpoint main_loop (parse_command : string → option (string * list string))
    (py_int : string → option Z) (fuel : nat) (lines : list string)
    (sched : Scheduler.t) (stdout : list string)
  : result (Scheduler.t * list string) :=
  match lines with
  | [] => Ok (sched, stdout)
  | raw :: lines' =>
      let line := rstrip_nl raw in
      if String.eqb line "" then Ok (sched, stdout ++ ["Break time!"])
      else
        match parse_command line with
        | None => main_loop parse_command py_int fuel lines' sched stdout
        | Some (cmd, args) =>
            let* (sched, logs, out) := dispatch py_int fuel cmd args sched in
            let stdout := stdout ++ out in
            let stdout :=
              match logs with
              | [] => stdout
              | _ => stdout ++ [join (String "010"%char EmptyString) logs]
              end in
            main_loop parse_command py_int fuel lines' sched stdout
        end
  end.

(** [main]: what a session prints. *)
Definition main (parse_command : string → option (string * list string))
    (py_int : string → option Z) (fuel : nat) (lines : list string)
  : result (list string) :=
  let* (_, stdout) :=
    main_loop parse_command py_int fuel lines Scheduler.init [] in
  Ok stdout.

End Cli.

(** * Vocabulary of the verification

    Invariants, observations of a state, and the concrete sessions used as
    examples. *)

Import QueueRR Scheduler.

(** Buffer index of the [i]-th queued task. *)
Definition slot (q : QueueRR.t) (i : nat) : nat :=
  Z.to_nat ((_front q + Z.of_nat i) `mod` capacity q).

(** [repr q ts]: the queue object [q] is well formed and holds exactly the
    tasks [ts], head first. *)
Record repr (q : QueueRR.t) (ts : list Task) : Prop := mk_repr {
  repr_cap : 0 < capacity q;
  repr_buf : Z.of_nat (length (_buf q)) = capacity q;
  repr_front : 0 ≤ _front q < capacity q;
  repr_size : _size q = Z.of_nat (length ts);
  repr_le : Z.of_nat (length ts) ≤ capacity q;
  repr_slots : ∀ i t, ts !! i = Some t → _buf q !! slot q i = Some (Some t)
}.

(** A queued task always has work left. *)
Definition positive_burst (t : Task) : Prop := 1 ≤ remaining t.

(** The invariant of the dispatcher: the three dictionaries and the
    round-robin order know the same queue ids, every queue object is a well
    formed buffer of tasks with work left, the cursor is a valid index (zero
    while there is no queue), and the menu is the required one. *)
Record wf (s : Scheduler.t) : Prop := mk_wf {
  wf_counters : ∀ qid, is_Some (queues s !! qid) ↔ is_Some (id_counters s !! qid);
  wf_flags : ∀ qid, is_Some (queues s !! qid) ↔ is_Some (skip_flags s !! qid);
  wf_order : ∀ qid, qid ∈ queue_order s ↔ is_Some (queues s !! qid);
  wf_queues : ∀ qid q, queues s !! qid = Some q →
                ∃ ts, repr q ts ∧ Forall positive_burst ts;
  wf_rr : 0 ≤ rr_index s ∧ (rr_index s < n_queues s ∨ rr_index s = 0);
  wf_menu : _menu s = REQUIRED_MENU
}.

(** The queue the cursor points at. *)
Definition visited (s : Scheduler.t) : option string :=
  queue_order s !! Z.to_nat (rr_index s).

Definition is_display (l : LogLine) : bool :=
  match l with
  | DisplayHead _ _ | DisplayMenu _ | DisplayQueue _ _ _ _ _ => true
  | _ => false
  end.

(** The state in which a turn leaves the dispatcher: the cursor advanced by
    one position modulo the number of queues. *)
Definition advance (s : Scheduler.t) : Scheduler.t :=
  set_rr_index s ((rr_index s + 1) `mod` n_queues s).

(** What a turn does, branch by branch, on a well-formed state. *)
Inductive turn_outcome (quantum : Z) (s : Scheduler.t)
  : Scheduler.t → list LogLine → Prop :=
| outcome_skip qid d :
    visited s = Some qid → skip_flags s !! qid = Some true →
    let s1 := set_skip_flags s (<[qid := false]> (skip_flags s)) in
    display s1 = Ok (s1, d) →
    turn_outcome quantum s (advance s1) (EvRun (time s) qid :: d)
| outcome_empty qid q d :
    visited s = Some qid → default false (skip_flags s !! qid) = false →
    queues s !! qid = Some q → _size q = 0 →
    display s = Ok (s, d) →
    turn_outcome quantum s (advance s) (EvRun (time s) qid :: d)
| outcome_work qid q t ts q' d :
    visited s = Some qid → default false (skip_flags s !! qid) = false →
    queues s !! qid = Some q → repr q (t :: ts) → positive_burst t →
    let w := Z.min quantum (remaining t) in
    let t' := Task_set_remaining t (remaining t - w) in
    let ts' := if remaining t' =? 0 then ts else ts ++ [t'] in
    let ev := if remaining t' =? 0 then EvFinish (time s + w) qid (task_id t)
              else EvWork (time s + w) qid (task_id t) (remaining t') in
    let s' := advance (set_time (set_queues s (<[qid := q']> (queues s)))
                         (time s + w)) in
    repr q' ts' → capacity q' = capacity q →
    display s' = Ok (s', d) →
    turn_outcome quantum s s' ([EvRun (time s) qid; ev] ++ d).

(** Sum of [g] over the values of a dictionary. *)
Definition msum {V : Type} (g : V → nat) (m : gmap string V) : nat :=
  map_fold (λ _ v acc, (g v + acc)%nat) 0%nat m.

(** Service still owed to the tasks of one queue. *)
Definition qload (q : QueueRR.t) : nat :=
  match QueueRR.tasks_list q with
  | Ok ts => sum_list_with (λ t, Z.to_nat (remaining t)) ts
  | _ => 0%nat
  end.

Definition flag_load (b : bool) : nat := if b then 1%nat else 0%nat.

(** Pending work of the dispatcher: owed service plus latched skips. *)
Definition load (s : Scheduler.t) : nat :=
  (msum qload (queues s) + msum flag_load (skip_flags s))%nat.

(** [k] consecutive turns, with the lines they log. *)
Fixpoint turns (quantum : Z) (k : nat) (s : Scheduler.t)
  : result (Scheduler.t * list LogLine) :=
  match k with
  | O => Ok (s, [])
  | S k' =>
      let* (s1, l1) := turn quantum s in
      let* (s2, l2) := turns quantum k' s1 in
      Ok (s2, l1 ++ l2)
  end.



(** The state a session leaves behind (the fresh dispatcher if it fails). *)
Definition state_after (os : list op) : Scheduler.t :=
  match exec_all 64 os Scheduler.init with
  | Ok (s, _) => s
  | _ => Scheduler.init
  end.

(** The text of the lines a session logs. *)
Definition rendered (r : result (Scheduler.t * list LogLine)) : list string :=
  match r with
  | Ok (_, logs) => render <$> logs
  | _ => []
  end.

(** A one-slot queue that is full. *)
Definition full_queue_session : list op :=
  [OpCreate "A" 1; OpEnqueue "A" "latte"].

(** Two queues, the first one holding a three-unit task. *)
Definition two_queue_session : list op :=
  [OpCreate "A" 2; OpCreate "B" 1; OpEnqueue "A" "latte"].

(** Work performed by the turn that starts in [s]: the smaller of the
    quantum and the head task's burst in a work turn, nothing in a skip turn
    or an empty turn. *)
Definition work_amount (quantum : Z) (s : Scheduler.t) : Z :=
  match visited s with
  | Some qid =>
      if default false (skip_flags s !! qid) then 0
      else match queues s !! qid with
           | Some q =>
               match QueueRR.peek q with
               | Ok (Some t) => Z.min quantum (remaining t)
               | _ => 0
               end
           | None => 0
           end
  | None => 0
  end.





(** The turn that starts in [s] visits [qid] and takes the skip branch. *)
Definition skips (s : Scheduler.t) (qid : string) : bool :=
  bool_decide (visited s = Some qid) && default false (skip_flags s !! qid).

(** Number of the first [k] turns from [s] that skip queue [qid]. *)
Fixpoint skipped_turns (quantum : Z) (k : nat) (qid : string) (s : Scheduler.t)
  : nat :=
  match k with
  | O => 0
  | S k' =>
      match turn quantum s with
      | Ok (s1, _) =>
          ((if skips s qid then 1 else 0) + skipped_turns quantum k' qid s1)%nat
      | _ => 0
      end
  end.

(** Calls on one queue object and what they return. *)
Inductive qcall : Type :=
| QEnqueue (task : Task)
| QDequeue
| QPeek.

Inductive qret : Type :=
| REnqueue (ok : bool)
| RTask (t : option Task).

Definition qstep (c : qcall) (q : QueueRR.t) : result (qret * QueueRR.t) :=
  match c with
  | QEnqueue task => let* (ok, q) := QueueRR.enqueue q task in Ok (REnqueue ok, q)
  | QDequeue => let* (t, q) := QueueRR.dequeue q in Ok (RTask t, q)
  | QPeek => let* t := QueueRR.peek q in Ok (RTask t, q)
  end.

Fixpoint qsteps (cs : list qcall) (q : QueueRR.t) : result (list qret * QueueRR.t) :=
  match cs with
  | [] => Ok ([], q)
  | c :: cs' =>
      let* (r, q) := qstep c q in
      let* (rs, q) := qsteps cs' q in
      Ok (r :: rs, q)
  end.

(** The reference behaviour: a FIFO list bounded by [cap]. *)
Definition fifo_step (cap : Z) (c : qcall) (ts : list Task) : qret * list Task :=
  match c with
  | QEnqueue task =>
      if Z.of_nat (length ts) <? cap then (REnqueue true, ts ++ [task])
      else (REnqueue false, ts)
  | QDequeue =>
      match ts with
      | [] => (RTask None, [])
      | t :: ts' => (RTask (Some t), ts')
      end
  | QPeek => (RTask (head ts), ts)
  end.

Fixpoint fifo_steps (cap : Z) (cs : list qcall) (ts : list Task)
  : list qret * list Task :=
  match cs with
  | [] => ([], ts)
  | c :: cs' =>
      let '(r, ts) := fifo_step cap c ts in
      let '(rs, ts) := fifo_steps cap cs' ts in
      (r :: rs, ts)
  end.

(** [layout q ts]: slot [j] of the buffer holds the task queued at distance
    [(j - front) mod capacity] behind the head, and [None] when no task is
    queued that far. *)
Definition layout (q : QueueRR.t) (ts : list Task) : Prop :=
  ∀ j, Z.of_nat j < capacity q →
    _buf q !! j
    = Some (ts !! Z.to_nat ((Z.of_nat j - _front q) `mod` capacity q)).

(** Service owed to all queued tasks, as an integer. *)
Definition owed (s : Scheduler.t) : Z := Z.of_nat (msum qload (queues s)).

(** The queues named by the run events of a log, in order. *)
Fixpoint run_queues (logs : list LogLine) : list string :=
  match logs with
  | [] => []
  | EvRun _ qid :: logs' => qid :: run_queues logs'
  | _ :: logs' => run_queues logs'
  end.

(** The line [display] prints for queue [qid]. *)
Definition queue_line (s : Scheduler.t) (qid : string) (q : QueueRR.t)
    (ts : list Task) : LogLine :=
  DisplayQueue qid (Z.of_nat (length ts)) (QueueRR.capacity q)
    (default false (skip_flags s !! qid))
    ((λ t, (task_id t, remaining t)) <$> ts).

(** The number written by a string of decimal digits, read left to right
    from the value [acc] of the digits already read. *)
Definition digit_value (c : ascii) : N := (N_of_ascii c - 48)%N.

Fixpoint dec_from (acc : N) (s : string) : N :=
  match s with
  | EmptyString => acc
  | String c s' => dec_from (acc * 10 + digit_value c) s'
  end.

(** The task id built from a queue id and a sequence number. *)
Definition id_of (qid : string) (c : Z) : string :=
  qid +:+ "-" +:+ format_03d c.

(** Every counter is non-negative, every queued task carries an id built
    from its queue's id and a sequence number between one and the queue's
    counter, and the sequence numbers of the tasks of one queue are pairwise
    distinct. *)
Definition ids_wf (s : Scheduler.t) : Prop :=
  ∀ qid q ts, queues s !! qid = Some q → repr q ts →
    ∃ c cs, id_counters s !! qid = Some c ∧ 0 ≤ c ∧
            task_id <$> ts = id_of qid <$> cs ∧ NoDup cs ∧
            Forall (λ n, 1 ≤ n ≤ c) cs.

(** * Verification *)

(** ** The Python primitives inside their domain *)

Lemma py_mod_pos a b : 0 < b → py_mod a b = Ok (a `mod` b).
Proof. intros Hb. unfold py_mod. destruct (Z.eqb_spec b 0); [lia | done]. Qed.

Lemma py_index_in len i : 0 ≤ i < len → py_index len i = Ok (Z.to_nat i).
Proof.
  intros [H0 H1]. unfold py_index.
  destruct (Z.ltb_spec i 0); [lia|].
  destruct (Z.leb_spec 0 i); [|lia].
  destruct (Z.ltb_spec i len); [done | lia].
Qed.

Lemma py_getitem_in {A} (l : list A) i x :
  0 ≤ i → l !! Z.to_nat i = Some x → py_getitem l i = Ok x.
Proof.
  intros H0 Hl. unfold py_getitem.
  rewrite py_index_in; [simpl; by rewrite Hl|].
  apply lookup_lt_Some in Hl. lia.
Qed.

Lemma py_setitem_in {A} (l : list A) i x :
  0 ≤ i < Z.of_nat (length l) → py_setitem l i x = Ok (<[Z.to_nat i := x]> l).
Proof. intros Hi. unfold py_setitem. by rewrite py_index_in. Qed.

Lemma mod_succ f k c : 0 < c → ((f + k) `mod` c + 1) `mod` c = (f + (k + 1)) `mod` c.
Proof. intros Hc. rewrite Zplus_mod_idemp_l. f_equal. lia. Qed.

Lemma mod_offset_inj f c i j :
  0 < c → 0 ≤ i < c → 0 ≤ j < c → (f + i) `mod` c = (f + j) `mod` c → i = j.
Proof.
  intros Hc Hi Hj Heq.
  assert (Hd : (i - j) `mod` c = 0).
  { replace (i - j) with ((f + i) - (f + j)) by lia.
    rewrite Zminus_mod, Heq, Z.sub_diag. by apply Z.mod_0_l; lia. }
  apply Z.mod_divide in Hd; [|lia]. destruct Hd as [k Hk].
  assert (k = 0) by nia. lia.
Qed.

(** ** The circular buffer represents a list of tasks *)

Lemma slot_lt q i : 0 < capacity q → Z.of_nat (slot q i) < capacity q.
Proof.
  intros Hc. unfold slot.
  pose proof (Z.mod_pos_bound (_front q + Z.of_nat i) (capacity q) Hc). lia.
Qed.

Lemma slot_inj q i j :
  0 < capacity q → Z.of_nat i < capacity q → Z.of_nat j < capacity q →
  slot q i = slot q j → i = j.
Proof.
  intros Hc Hi Hj Heq. unfold slot in Heq.
  pose proof (Z.mod_pos_bound (_front q + Z.of_nat i) (capacity q) Hc).
  pose proof (Z.mod_pos_bound (_front q + Z.of_nat j) (capacity q) Hc).
  apply Z2Nat.inj in Heq; [|lia..].
  apply mod_offset_inj in Heq; lia.
Qed.

Lemma slot_0 q : 0 ≤ _front q < capacity q → slot q 0 = Z.to_nat (_front q).
Proof.
  intros Hf. unfold slot. rewrite Z.add_0_r. by rewrite Z.mod_small.
Qed.

Lemma repr_unique q ts1 ts2 : repr q ts1 → repr q ts2 → ts1 = ts2.
Proof.
  intros H1 H2. apply list_eq_same_length with (length ts1); [|done|].
  - apply Nat2Z.inj. by rewrite <- (repr_size _ _ H1), <- (repr_size _ _ H2).
  - intros i x y _ Hx Hy.
    apply (repr_slots _ _ H1) in Hx. apply (repr_slots _ _ H2) in Hy. congruence.
Qed.

Lemma init_repr qid cap :
  0 < cap → ∃ q, QueueRR.init qid cap = Ok q ∧ repr q [] ∧ capacity q = cap.
Proof.
  intros Hc. unfold QueueRR.init.
  destruct (Z.gtb_spec cap 0); [|lia].
  eexists; split; [done|]. split; [|done].
  constructor; simpl; try lia.
  - rewrite length_replicate. lia.
  - intros i t Hi. by rewrite lookup_nil in Hi.
Qed.

Lemma init_nonpos qid cap : cap ≤ 0 → QueueRR.init qid cap = Raise AssertionError.
Proof. intros Hc. unfold QueueRR.init. destruct (Z.gtb_spec cap 0); [lia | done]. Qed.

Lemma enqueue_full q task :
  capacity q ≤ _size q → QueueRR.enqueue q task = Ok (false, q).
Proof.
  intros H. unfold QueueRR.enqueue.
  destruct (Z.geb_spec (_size q) (capacity q)); [done | lia].
Qed.

Lemma enqueue_repr q ts task :
  repr q ts → Z.of_nat (length ts) < capacity q →
  ∃ q', QueueRR.enqueue q task = Ok (true, q') ∧ repr q' (ts ++ [task]) ∧
        capacity q' = capacity q ∧ queue_id q' = queue_id q.
Proof.
  intros [Hc Hb Hf Hs Hle Hsl] Hlt. unfold QueueRR.enqueue.
  destruct (Z.geb_spec (_size q) (capacity q)); [lia|].
  rewrite py_mod_pos by done. simpl.
  pose proof (Z.mod_pos_bound (_front q + _size q) (capacity q) Hc) as Hm.
  rewrite py_setitem_in by lia. simpl.
  eexists; split; [done|]. split; [|done].
  constructor; simpl; try done.
  - rewrite length_insert. done.
  - rewrite length_app; simpl. lia.
  - rewrite length_app; simpl. lia.
  - intros i t Hi. rewrite Hs.
    change (Z.to_nat ((_front q + Z.of_nat (length ts)) `mod` capacity q))
      with (slot q (length ts)).
    change (slot (set_size (set_buf q _) _) i) with (slot q i).
    apply lookup_app_Some in Hi as [Hi | [Hge Hi]].
    + rewrite list_lookup_insert_ne.
      * by apply Hsl.
      * intros Heq. apply lookup_lt_Some in Hi.
        apply slot_inj in Heq; lia.
    + apply list_lookup_singleton_Some in Hi as [Hi ->].
      assert (i = length ts) as -> by lia.
      apply list_lookup_insert_eq.
      pose proof (slot_lt q (length ts) Hc). lia.
Qed.

Lemma peek_repr q t ts : repr q (t :: ts) → QueueRR.peek q = Ok (Some t).
Proof.
  intros [Hc Hb Hf Hs Hle Hsl]. unfold QueueRR.peek.
  simpl in Hs. destruct (Z.eqb_spec (_size q) 0); [lia|].
  apply py_getitem_in; [lia|].
  rewrite <- slot_0 by done. by apply Hsl.
Qed.

Lemma peek_empty q : _size q = 0 → QueueRR.peek q = Ok None.
Proof. intros H. unfold QueueRR.peek. by rewrite H. Qed.

Lemma dequeue_empty q : _size q = 0 → QueueRR.dequeue q = Ok (None, q).
Proof. intros H. unfold QueueRR.dequeue. by rewrite H. Qed.

Lemma dequeue_repr q t ts :
  repr q (t :: ts) →
  ∃ q', QueueRR.dequeue q = Ok (Some t, q') ∧ repr q' ts ∧
        capacity q' = capacity q ∧ queue_id q' = queue_id q.
Proof.
  intros [Hc Hb Hf Hs Hle Hsl]. unfold QueueRR.dequeue.
  simpl in Hs, Hle. destruct (Z.eqb_spec (_size q) 0); [lia|].
  rewrite (py_getitem_in _ _ (Some t)); [|lia|]; cycle 1.
  { rewrite <- slot_0 by done. by apply Hsl. }
  simpl. rewrite py_setitem_in by lia. simpl.
  rewrite py_mod_pos by done. simpl.
  eexists; split; [done|]. split; [|done].
  pose proof (Z.mod_pos_bound (_front q + 1) (capacity q) Hc) as Hm.
  constructor; simpl; try done; try lia.
  - by rewrite length_insert.
  - intros i t' Hi.
    assert (Hsl' : slot (set_size (set_front (set_buf q
                     (<[Z.to_nat (_front q):=None]> (_buf q)))
                     ((_front q + 1) `mod` capacity q)) (_size q - 1)) i
                   = slot q (S i)).
    { unfold slot; simpl. rewrite Zplus_mod_idemp_l. do 2 f_equal. lia. }
    rewrite Hsl'. apply lookup_lt_Some in Hi as Hlt.
    rewrite list_lookup_insert_ne.
    + by apply (Hsl (S i)).
    + rewrite <- slot_0 by done. intros Heq. apply slot_inj in Heq; lia.
Qed.

(** Updating the head task in place. *)
Lemma set_head_repr q t ts t' :
  repr q (t :: ts) →
  ∃ b, py_setitem (_buf q) (_front q) (Some t') = Ok b ∧
       repr (set_buf q b) (t' :: ts).
Proof.
  intros [Hc Hb Hf Hs Hle Hsl].
  rewrite py_setitem_in by lia. eexists; split; [done|].
  simpl in *. constructor; simpl; try done.
  - by rewrite length_insert.
  - intros i x Hi.
    change (slot (set_buf q _) i) with (slot q i).
    destruct i as [|i]; simpl in Hi.
    + injection Hi as <-. rewrite slot_0 by done.
      apply list_lookup_insert_eq. lia.
    + apply lookup_lt_Some in Hi as Hlt.
      rewrite list_lookup_insert_ne.
      * by apply (Hsl (S i)).
      * rewrite <- slot_0 by done. intros Heq. apply slot_inj in Heq; lia.
Qed.

Lemma tasks_loop_repr q ts :
  repr q ts →
  ∀ n k out, (k + n = length ts)%nat →
    tasks_loop q n ((_front q + Z.of_nat k) `mod` capacity q) out
    = Ok (out ++ drop k ts).
Proof.
  intros [Hc Hb Hf Hs Hle Hsl]. induction n as [|n IH]; intros k out Hk; simpl.
  - rewrite drop_ge by lia. by rewrite app_nil_r.
  - destruct (lookup_lt_is_Some_2 ts k) as [t Ht]; [lia|].
    pose proof (Z.mod_pos_bound (_front q + Z.of_nat k) (capacity q) Hc) as Hm.
    rewrite (py_getitem_in _ _ (Some t)); [|lia|by apply Hsl].
    simpl. rewrite py_mod_pos by done. simpl.
    rewrite mod_succ by done.
    replace (Z.of_nat k + 1) with (Z.of_nat (S k)) by lia.
    rewrite IH by lia. rewrite <- app_assoc. simpl.
    by rewrite (drop_S _ _ _ Ht).
Qed.

Lemma tasks_list_repr q ts : repr q ts → QueueRR.tasks_list q = Ok ts.
Proof.
  intros Hr. unfold QueueRR.tasks_list.
  pose proof (tasks_loop_repr q ts Hr (length ts) 0%nat []) as H.
  destruct Hr as [Hc Hb Hf Hs Hle Hsl].
  rewrite Z.add_0_r, Z.mod_small in H by done.
  rewrite Hs, Nat2Z.id. by rewrite H.
Qed.

(** ** Well-formed dispatcher states *)

Lemma menu_positive item c : REQUIRED_MENU !! item = Some c → 1 ≤ c.
Proof.
  unfold REQUIRED_MENU. intros H.
  repeat (apply lookup_insert_Some in H as [[_ <-]|[_ H]]; [lia|]).
  by rewrite lookup_empty in H.
Qed.

Lemma wf_init : wf Scheduler.init.
Proof.
  constructor; simpl; try done.
  - intros qid. by rewrite !lookup_empty.
  - intros qid. by rewrite !lookup_empty.
  - intros qid. rewrite lookup_empty.
    split; [by intros ?%elem_of_nil | by intros [? ?]].
  - unfold n_queues; simpl. lia.
Qed.

Lemma wf_set_rr s r :
  wf s → 0 ≤ r → r < n_queues s ∨ r = 0 → wf (set_rr_index s r).
Proof. intros [] ??. by constructor. Qed.

Lemma wf_set_time s v : wf s → wf (set_time s v).
Proof. intros []. by constructor. Qed.

Lemma wf_set_flag s qid b :
  wf s → is_Some (skip_flags s !! qid) →
  wf (set_skip_flags s (<[qid := b]> (skip_flags s))).
Proof.
  intros [Hc Hf Ho Hq Hr Hm] Hin. constructor; simpl; try done.
  intros k. rewrite lookup_insert_is_Some, Hf.
  destruct (decide (qid = k)) as [->|]; naive_solver.
Qed.

Lemma wf_set_counter s qid c :
  wf s → is_Some (id_counters s !! qid) →
  wf (set_id_counters s (<[qid := c]> (id_counters s))).
Proof.
  intros [Hc Hf Ho Hq Hr Hm] Hin. constructor; simpl; try done.
  intros k. rewrite lookup_insert_is_Some, Hc.
  destruct (decide (qid = k)) as [->|]; naive_solver.
Qed.

Lemma wf_set_queue s qid q ts :
  wf s → is_Some (queues s !! qid) → repr q ts → Forall positive_burst ts →
  wf (set_queues s (<[qid := q]> (queues s))).
Proof.
  intros [Hc Hf Ho Hq Hr Hm] Hin Hrep Hpos. constructor; simpl; try done.
  - intros k. rewrite lookup_insert_is_Some, <- Hc.
    destruct (decide (qid = k)) as [->|]; naive_solver.
  - intros k. rewrite lookup_insert_is_Some, <- Hf.
    destruct (decide (qid = k)) as [->|]; naive_solver.
  - intros k. rewrite lookup_insert_is_Some, Ho.
    destruct (decide (qid = k)) as [->|]; naive_solver.
  - intros k q' Hk. apply lookup_insert_Some in Hk as [[_ <-]|[_ Hk]]; eauto.
Qed.

Lemma wf_visited s :
  wf s → 0 < n_queues s →
  ∃ qid q ts, visited s = Some qid ∧ queues s !! qid = Some q ∧
              repr q ts ∧ Forall positive_burst ts ∧
              is_Some (skip_flags s !! qid) ∧ rr_index s < n_queues s.
Proof.
  intros Hwf Hn. destruct (wf_rr s Hwf) as [H0 Hlt].
  assert (Hr : rr_index s < n_queues s) by lia.
  destruct (lookup_lt_is_Some_2 (queue_order s) (Z.to_nat (rr_index s)))
    as [qid Hqid]; [unfold n_queues in Hr; lia|].
  assert (Hin : qid ∈ queue_order s) by (apply list_elem_of_lookup; eauto).
  apply (wf_order s Hwf) in Hin as Hq. destruct Hq as [q Hq].
  destruct (wf_queues s Hwf qid q Hq) as (ts & Hrep & Hpos).
  exists qid, q, ts. split_and!; try done.
  apply (wf_flags s Hwf). eauto.
Qed.

(** ** [display] *)

Lemma next_queue_wf s : wf s → next_queue s = Ok (visited s, s).
Proof.
  intros Hwf. unfold next_queue, visited.
  destruct (queue_order s) as [|q0 order] eqn:Ho; [done|].
  destruct (wf_rr s Hwf) as [H0 Hlt].
  assert (Hn : 0 < n_queues s) by (unfold n_queues; rewrite Ho; simpl; lia).
  destruct (Z.ltb_spec (rr_index s) 0); [lia|].
  destruct (Z.geb_spec (rr_index s) (n_queues s)); [lia|]. simpl.
  destruct (lookup_lt_is_Some_2 (queue_order s) (Z.to_nat (rr_index s)))
    as [qid Hqid]; [unfold n_queues in *; lia|].
  rewrite (py_getitem_in _ _ qid); [|lia|done]. simpl.
  by rewrite <- Ho, Hqid.
Qed.

Lemma display_queues_wf s order :
  wf s → (∀ qid, qid ∈ order → qid ∈ queue_order s) →
  ∃ ql, display_queues s order = Ok ql ∧ forallb is_display ql = true.
Proof.
  intros Hwf. induction order as [|qid order IH]; intros Hsub; simpl.
  - by exists [].
  - assert (Hin : qid ∈ queue_order s) by (apply Hsub; left).
    apply (wf_order s Hwf) in Hin as [q Hq].
    destruct (wf_queues s Hwf qid q Hq) as (ts & Hrep & _).
    unfold dict_getitem. rewrite Hq. simpl.
    rewrite (tasks_list_repr q ts Hrep). simpl.
    destruct IH as (ql & -> & Hql); [intros; apply Hsub; by right|].
    simpl. eexists; split; [done|]. by simpl.
Qed.

Lemma display_wf s :
  wf s →
  ∃ ql, display s
        = Ok (s, DisplayHead (time s) (visited s)
                   :: DisplayMenu (sorted_menu (_menu s)) :: ql) ∧
        forallb is_display ql = true.
Proof.
  intros Hwf. unfold display. rewrite next_queue_wf by done. simpl.
  destruct (display_queues_wf s (queue_order s) Hwf) as (ql & -> & Hql); [done|].
  simpl. by exists ql.
Qed.

(** ** [create_queue] *)

Lemma create_queue_wf qid cap s :
  wf s → 0 < cap →
  ∃ q, QueueRR.init qid cap = Ok q ∧
       create_queue qid cap s
       = Ok (set_skip_flags (set_id_counters (set_queue_order
               (set_queues s (<[qid := q]> (queues s)))
               (queue_order s ++ [qid]))
               (<[qid := 0]> (id_counters s)))
               (<[qid := false]> (skip_flags s)),
             [EvCreate (time s) qid]) ∧
       repr q [] ∧ capacity q = cap.
Proof.
  intros Hwf Hc. destruct (init_repr qid cap Hc) as (q & Hq & Hrep & Hcap).
  exists q. unfold create_queue. rewrite Hq. by simpl.
Qed.

Lemma create_queue_preserves qid cap s s' logs :
  wf s → create_queue qid cap s = Ok (s', logs) → wf s'.
Proof.
  intros Hwf H. destruct (Z.le_gt_cases cap 0) as [Hc|Hc].
  { unfold create_queue in H. by rewrite init_nonpos in H. }
  destruct (create_queue_wf qid cap s Hwf Hc) as (q & _ & Heq & Hrep & _).
  rewrite Heq in H. injection H as <- <-.
  destruct Hwf as [Hcn Hf Ho Hq Hr Hm]. constructor; simpl; try done.
  - intros k. rewrite !lookup_insert_is_Some, Hcn. done.
  - intros k. rewrite !lookup_insert_is_Some, Hf. done.
  - intros k. rewrite elem_of_app, list_elem_of_singleton,
      lookup_insert_is_Some, Ho.
    destruct (decide (qid = k)) as [->|]; naive_solver.
  - intros k q' Hk. apply lookup_insert_Some in Hk as [[_ <-]|[_ Hk]]; eauto.
  - unfold n_queues in *; simpl. rewrite length_app; simpl. lia.
Qed.

(** ** [enqueue] and [mark_skip] *)

Lemma set_queues_id s qid q :
  queues s !! qid = Some q → set_queues s (<[qid := q]> (queues s)) = s.
Proof. intros H. destruct s. unfold set_queues; simpl in *. by rewrite insert_id. Qed.

Lemma enqueue_unknown_item qid item s :
  _menu s !! item = None →
  Scheduler.enqueue qid item s
  = Ok (s, [EvReject (time s) qid unknown_item], ["Sorry, we don't serve that."]).
Proof. intros H. unfold Scheduler.enqueue. by rewrite H. Qed.

Lemma enqueue_unknown_queue qid item s burst :
  _menu s !! item = Some burst → queues s !! qid = None →
  Scheduler.enqueue qid item s = Ok (s, [EvReject (time s) qid unknown_queue], []).
Proof. intros H1 H2. unfold Scheduler.enqueue. by rewrite H1, H2. Qed.

Lemma enqueue_at_capacity qid item s burst q c :
  _menu s !! item = Some burst → queues s !! qid = Some q →
  id_counters s !! qid = Some c → capacity q ≤ _size q →
  Scheduler.enqueue qid item s
  = Ok (set_id_counters s (<[qid := c + 1]> (id_counters s)),
        [EvReject (time s) qid full], ["Sorry, we're at capacity."]).
Proof.
  intros H1 H2 H3 H4. unfold Scheduler.enqueue. rewrite H1, H2.
  unfold dict_getitem. rewrite H3. simpl. rewrite lookup_insert_eq, H2. simpl.
  rewrite enqueue_full by done. simpl.
  do 3 f_equal. exact (set_queues_id (set_id_counters s _) qid q H2).
Qed.

Lemma enqueue_accepted qid item s burst q ts c :
  _menu s !! item = Some burst → queues s !! qid = Some q →
  id_counters s !! qid = Some c → repr q ts → Z.of_nat (length ts) < capacity q →
  let tid := qid +:+ "-" +:+ format_03d (c + 1) in
  let task := {| task_id := tid; remaining := burst |} in
  ∃ q', QueueRR.enqueue q task = Ok (true, q') ∧ repr q' (ts ++ [task]) ∧
        capacity q' = capacity q ∧
        Scheduler.enqueue qid item s
        = Ok (set_queues (set_id_counters s (<[qid := c + 1]> (id_counters s)))
                (<[qid := q']> (queues s)),
              [EvEnqueue (time s) qid tid burst], []).
Proof.
  intros H1 H2 H3 Hrep Hlt tid task.
  destruct (enqueue_repr q ts task Hrep Hlt) as (q' & Henq & Hrep' & Hcap & _).
  exists q'. split_and!; try done.
  unfold Scheduler.enqueue. rewrite H1, H2.
  unfold dict_getitem. rewrite H3. simpl. rewrite lookup_insert_eq, H2. simpl.
  fold tid. fold task. rewrite Henq. by simpl.
Qed.

Lemma enqueue_preserves qid item s s' logs out :
  wf s → Scheduler.enqueue qid item s = Ok (s', logs, out) → wf s'.
Proof.
  intros Hwf H.
  destruct (_menu s !! item) as [burst|] eqn:Hm; cycle 1.
  { rewrite enqueue_unknown_item in H by done. by injection H as <- _ _. }
  destruct (queues s !! qid) as [q|] eqn:Hq; cycle 1.
  { rewrite (enqueue_unknown_queue _ _ _ burst) in H by done. by injection H as <- _ _. }
  destruct (proj1 (wf_counters s Hwf qid)) as [c Hc]; [by eauto|].
  destruct (wf_queues s Hwf qid q Hq) as (ts & Hrep & Hpos).
  assert (Hwc : wf (set_id_counters s (<[qid := c + 1]> (id_counters s))))
    by (apply wf_set_counter; eauto).
  destruct (Z.le_gt_cases (capacity q) (_size q)) as [Hfull|Hfree].
  - rewrite (enqueue_at_capacity _ _ _ burst q c) in H by done.
    by injection H as <- _ _.
  - rewrite (repr_size _ _ Hrep) in Hfree.
    destruct (enqueue_accepted qid item s burst q ts c Hm Hq Hc Hrep Hfree)
      as (q' & _ & Hrep' & _ & Heq).
    rewrite Heq in H. injection H as <- _ _.
    eapply (wf_set_queue _ qid q' _ Hwc); [by simpl; eauto | exact Hrep' |].
    apply Forall_app; split; [done|]. constructor; [|constructor].
    unfold positive_burst; simpl. apply (menu_positive item).
    by rewrite <- (wf_menu s Hwf).
Qed.

Lemma mark_skip_known qid s :
  is_Some (skip_flags s !! qid) →
  mark_skip qid s
  = Ok (set_skip_flags s (<[qid := true]> (skip_flags s)), [EvSkip (time s) qid]).
Proof. intros [b Hb]. unfold mark_skip. by rewrite Hb. Qed.

Lemma mark_skip_unknown qid s :
  skip_flags s !! qid = None → mark_skip qid s = Ok (s, [EvSkip (time s) qid]).
Proof. intros Hb. unfold mark_skip. by rewrite Hb. Qed.

Lemma mark_skip_preserves qid s s' logs :
  wf s → mark_skip qid s = Ok (s', logs) → wf s'.
Proof.
  intros Hwf H. destruct (skip_flags s !! qid) as [b|] eqn:Hb.
  - rewrite mark_skip_known in H by eauto. injection H as <- _.
    apply wf_set_flag; eauto.
  - rewrite mark_skip_unknown in H by done. by injection H as <- _.
Qed.

(** ** One turn of [run] *)

Lemma next_index_range s : 0 < n_queues s →
  0 ≤ (rr_index s + 1) `mod` n_queues s < n_queues s.
Proof. intros Hn. by apply Z.mod_pos_bound. Qed.

(** The three branches, selected by the state of the visited queue. *)
Lemma turn_skip quantum s qid :
  wf s → 0 < n_queues s → visited s = Some qid →
  skip_flags s !! qid = Some true →
  let s1 := set_skip_flags s (<[qid := false]> (skip_flags s)) in
  ∃ d, display s1 = Ok (s1, d) ∧
       turn quantum s
       = Ok (set_rr_index s1 ((rr_index s + 1) `mod` n_queues s),
             EvRun (time s) qid :: d) ∧
       wf (set_rr_index s1 ((rr_index s + 1) `mod` n_queues s)).
Proof.
  intros Hwf Hn Hv Hflag s1.
  destruct (wf_visited s Hwf Hn) as (qid' & q & ts & Hv' & Hq & _ & _ & _ & Hr).
  assert (qid' = qid) as -> by congruence. clear Hv'.
  assert (Hwf1 : wf s1) by (apply wf_set_flag; eauto).
  destruct (display_wf s1 Hwf1) as (ql & Hd & _).
  eexists; split; [exact Hd|]. split.
  - unfold turn. destruct (Z.geb_spec (rr_index s) (n_queues s)); [lia|]. simpl.
    rewrite (py_getitem_in _ _ qid); [|apply (wf_rr s Hwf)|done]. simpl.
    unfold dict_getitem. rewrite Hq. simpl. rewrite Hflag. simpl.
    fold s1. rewrite Hd. simpl. rewrite py_mod_pos by done. done.
  - apply wf_set_rr; [done| |left]; apply (next_index_range s Hn).
Qed.

Lemma turn_empty quantum s qid q :
  wf s → 0 < n_queues s → visited s = Some qid →
  default false (skip_flags s !! qid) = false →
  queues s !! qid = Some q → _size q = 0 →
  ∃ d, display s = Ok (s, d) ∧
       turn quantum s
       = Ok (set_rr_index s ((rr_index s + 1) `mod` n_queues s),
             EvRun (time s) qid :: d) ∧
       wf (set_rr_index s ((rr_index s + 1) `mod` n_queues s)).
Proof.
  intros Hwf Hn Hv Hflag Hq Hsz.
  destruct (wf_visited s Hwf Hn) as (_ & _ & _ & _ & _ & _ & _ & _ & Hr).
  destruct (display_wf s Hwf) as (ql & Hd & _).
  eexists; split; [exact Hd|]. split.
  - unfold turn. destruct (Z.geb_spec (rr_index s) (n_queues s)); [lia|]. simpl.
    rewrite (py_getitem_in _ _ qid); [|apply (wf_rr s Hwf)|done]. simpl.
    unfold dict_getitem. rewrite Hq. simpl. rewrite Hflag.
    unfold QueueRR.len. rewrite Hsz. simpl.
    rewrite Hd. simpl. rewrite py_mod_pos by done. done.
  - apply wf_set_rr; [done| |left]; apply (next_index_range s Hn).
Qed.

(** The queue operations of a work turn on a well-formed queue: the peek
    and the dequeue return the head task, and the re-enqueue that follows the
    dequeue finds a free slot. *)
Lemma head_service_steps q t ts t' :
  repr q (t :: ts) →
  ∃ b q2 q3,
    QueueRR.peek q = Ok (Some t) ∧
    py_setitem (_buf q) (_front q) (Some t') = Ok b ∧
    QueueRR.dequeue (set_buf q b) = Ok (Some t', q2) ∧ repr q2 ts ∧
    QueueRR.enqueue q2 t' = Ok (true, q3) ∧ repr q3 (ts ++ [t']) ∧
    capacity q2 = capacity q ∧ capacity q3 = capacity q.
Proof.
  intros Hrep.
  destruct (set_head_repr q t ts t' Hrep) as (b & Hb & Hrep1).
  destruct (dequeue_repr _ _ _ Hrep1) as (q2 & Hdq & Hrep2 & Hcap2 & _).
  assert (Hlt : Z.of_nat (length ts) < capacity q2).
  { pose proof (repr_le _ _ Hrep) as Hle. simpl in Hle.
    rewrite Hcap2. simpl. lia. }
  destruct (enqueue_repr q2 ts t' Hrep2 Hlt) as (q3 & Henq & Hrep3 & Hcap3 & _).
  exists b, q2, q3. split_and!; try done.
  - by apply (peek_repr q t ts).
  - by rewrite Hcap3, Hcap2.
Qed.

Lemma turn_work quantum s qid q t ts :
  wf s → 0 < n_queues s → visited s = Some qid →
  default false (skip_flags s !! qid) = false →
  queues s !! qid = Some q → repr q (t :: ts) →
  let w := Z.min quantum (remaining t) in
  let t' := Task_set_remaining t (remaining t - w) in
  let ts' := if remaining t' =? 0 then ts else ts ++ [t'] in
  let ev := if remaining t' =? 0 then EvFinish (time s + w) qid (task_id t)
            else EvWork (time s + w) qid (task_id t) (remaining t') in
  ∃ q' d,
    let s' := set_rr_index
                (set_time (set_queues s (<[qid := q']> (queues s))) (time s + w))
                ((rr_index s + 1) `mod` n_queues s) in
    repr q' ts' ∧ capacity q' = capacity q ∧ wf s' ∧
    display s' = Ok (s', d) ∧
    turn quantum s = Ok (s', [EvRun (time s) qid; ev] ++ d).
Proof.
  intros Hwf Hn Hv Hflag Hq Hrep w t' ts' ev.
  destruct (wf_visited s Hwf Hn) as (_ & _ & _ & _ & _ & _ & _ & _ & Hr).
  destruct (wf_queues s Hwf qid q Hq) as (ts0 & Hrep0 & Hpos).
  rewrite <- (repr_unique _ _ _ Hrep Hrep0) in Hpos. clear ts0 Hrep0.
  apply Forall_cons in Hpos as [Hpt Hpos]. unfold positive_burst in Hpt.
  destruct (head_service_steps q t ts t' Hrep)
    as (b & q2 & q3 & Hpeek & Hb & Hdq & Hrep2 & Henq & Hrep3 & Hcap2 & Hcap3).
  assert (Hsz : _size q ≠ 0) by (rewrite (repr_size _ _ Hrep); simpl; lia).
  assert (Hpre : ∀ qf tsf,
    repr qf tsf → Forall positive_burst tsf →
    let s' := set_rr_index
                (set_time (set_queues s (<[qid := qf]> (queues s))) (time s + w))
                ((rr_index s + 1) `mod` n_queues s) in
    wf s' ∧ ∃ d, display s' = Ok (s', d)).
  { intros qf tsf Hrepf Hposf s'.
    assert (Hwf' : wf s').
    { apply wf_set_rr;
        [|apply (next_index_range s Hn)|left; apply (next_index_range s Hn)].
      apply wf_set_time. by apply (wf_set_queue _ _ _ tsf); eauto. }
    destruct (display_wf s' Hwf') as (ql & Hd & _). eauto. }
  unfold ts', ev. destruct (Z.eqb_spec (remaining t') 0) as [Hz|Hnz].
  - destruct (Hpre q2 ts Hrep2 Hpos) as (Hwf' & d & Hd).
    exists q2, d. split_and!; try done.
    unfold turn. destruct (Z.geb_spec (rr_index s) (n_queues s)); [lia|]. simpl.
    rewrite (py_getitem_in _ _ qid); [|apply (wf_rr s Hwf)|done]. simpl.
    unfold dict_getitem. rewrite Hq. simpl. rewrite Hflag.
    unfold QueueRR.len. destruct (Z.eqb_spec (_size q) 0); [done|].
    rewrite Hpeek. simpl. fold w. fold t'. rewrite Hb. simpl.
    change (remaining t - w) with (remaining t').
    destruct (Z.eqb_spec (remaining t') 0); [|done].
    rewrite Hdq. simpl. rewrite py_mod_pos by done. simpl.
    rewrite insert_insert_eq.
    match goal with |- context [display ?x] =>
      change x with (set_rr_index
        (set_time (set_queues s (<[qid := q2]> (queues s))) (time s + w))
        ((rr_index s + 1) `mod` n_queues s)) end.
    rewrite Hd. done.
  - assert (Hposf : Forall positive_burst (ts ++ [t'])).
    { apply Forall_app; split; [done|]. constructor; [|constructor].
      unfold positive_burst. unfold t', w in *. simpl in *. lia. }
    destruct (Hpre q3 _ Hrep3 Hposf) as (Hwf' & d & Hd).
    exists q3, d. split_and!; try done.
    unfold turn. destruct (Z.geb_spec (rr_index s) (n_queues s)); [lia|]. simpl.
    rewrite (py_getitem_in _ _ qid); [|apply (wf_rr s Hwf)|done]. simpl.
    unfold dict_getitem. rewrite Hq. simpl. rewrite Hflag.
    unfold QueueRR.len. destruct (Z.eqb_spec (_size q) 0); [done|].
    rewrite Hpeek. simpl. fold w. fold t'. rewrite Hb. simpl.
    change (remaining t - w) with (remaining t').
    destruct (Z.eqb_spec (remaining t') 0); [done|].
    rewrite Hdq. simpl. rewrite Henq. simpl. rewrite py_mod_pos by done. simpl.
    rewrite !insert_insert_eq.
    match goal with |- context [display ?x] =>
      change x with (set_rr_index
        (set_time (set_queues s (<[qid := q3]> (queues s))) (time s + w))
        ((rr_index s + 1) `mod` n_queues s)) end.
    rewrite Hd. done.
Qed.

Lemma turn_wf quantum s :
  wf s → 0 < n_queues s →
  ∃ s' logs, turn quantum s = Ok (s', logs) ∧ turn_outcome quantum s s' logs ∧
             wf s'.
Proof.
  intros Hwf Hn.
  destruct (wf_visited s Hwf Hn) as (qid & q & ts & Hv & Hq & Hrep & Hpos & [f Hf] & Hr).
  destruct f.
  - destruct (turn_skip quantum s qid Hwf Hn Hv Hf) as (d & Hd & Ht & Hwf').
    eexists _, _. split; [exact Ht|]. split; [|done].
    by apply (outcome_skip quantum s qid d).
  - assert (Hfl : default false (skip_flags s !! qid) = false) by by rewrite Hf.
    destruct ts as [|t ts].
    + assert (Hsz : _size q = 0) by by rewrite (repr_size _ _ Hrep).
      destruct (turn_empty quantum s qid q Hwf Hn Hv Hfl Hq Hsz) as (d & Hd & Ht & Hwf').
      eexists _, _. split; [exact Ht|]. split; [|done].
      by apply (outcome_empty quantum s qid q d).
    + destruct (turn_work quantum s qid q t ts Hwf Hn Hv Hfl Hq Hrep)
        as (q' & d & Hrep' & Hcap & Hwf' & Hd & Ht).
      eexists _, _. split; [exact Ht|]. split; [|done].
      apply Forall_cons in Hpos as [Hpt _].
      by apply (outcome_work quantum s qid q t ts q' d).
Qed.

Lemma turn_outcome_order quantum s s' logs :
  turn_outcome quantum s s' logs → queue_order s' = queue_order s.
Proof. by intros []. Qed.

Lemma turn_outcome_rr quantum s s' logs :
  turn_outcome quantum s s' logs →
  rr_index s' = (rr_index s + 1) `mod` n_queues s.
Proof. by intros []. Qed.

Lemma turn_outcome_counters quantum s s' logs :
  turn_outcome quantum s s' logs → id_counters s' = id_counters s.
Proof. by intros []. Qed.

Lemma turn_outcome_time quantum s s' logs :
  0 ≤ quantum → turn_outcome quantum s s' logs → time s ≤ time s'.
Proof.
  intros Hq [| |qid q t ts q' d _ _ _ _ Hpt w t' ts' ev s2 _ _ _]; simpl; try lia.
  unfold positive_burst in Hpt. unfold w. lia.
Qed.

(** ** Pending work: the termination measure of [run] *)

Lemma msum_empty {V : Type} (g : V → nat) : msum g ∅ = 0%nat.
Proof. apply map_fold_empty. Qed.

Lemma msum_insert_fresh {V : Type} (g : V → nat) m k v :
  m !! k = None → msum g (<[k := v]> m) = (g v + msum g m)%nat.
Proof.
  intros H. unfold msum. rewrite map_fold_insert_L; [done| |done].
  intros. lia.
Qed.

Lemma msum_delete {V : Type} (g : V → nat) m k v :
  m !! k = Some v → msum g m = (g v + msum g (delete k m))%nat.
Proof.
  intros H. unfold msum. rewrite (map_fold_delete_L _ _ k v m); [done| |done].
  intros. lia.
Qed.

Lemma msum_insert {V : Type} (g : V → nat) m k v v' :
  m !! k = Some v → (msum g (<[k := v']> m) + g v = g v' + msum g m)%nat.
Proof.
  intros H. rewrite (msum_delete g m k v H).
  rewrite <- (insert_delete_eq m k v').
  rewrite msum_insert_fresh by apply lookup_delete_eq. lia.
Qed.

Lemma msum_zero {V : Type} (g : V → nat) m :
  msum g m = 0%nat ↔ ∀ k v, m !! k = Some v → g v = 0%nat.
Proof.
  induction m as [|k v m Hk IH] using map_ind.
  - rewrite msum_empty. split; [|done]. intros _ k v. by rewrite lookup_empty.
  - rewrite msum_insert_fresh by done. split.
    + intros H k' v' Hl. apply lookup_insert_Some in Hl as [[_ <-]|[_ Hl]]; [lia|].
      apply (proj1 IH) with k'; [lia | done].
    + intros H. rewrite (H k v) by apply lookup_insert_eq.
      simpl. apply IH. intros k' v' Hl. apply (H k').
      rewrite lookup_insert_ne; [done|]. intros ->. congruence.
Qed.

Lemma qload_repr q ts :
  repr q ts → qload q = sum_list_with (λ t, Z.to_nat (remaining t)) ts.
Proof. intros H. unfold qload. by rewrite (tasks_list_repr q ts H). Qed.

Lemma qload_zero q ts :
  repr q ts → Forall positive_burst ts → qload q = 0%nat ↔ _size q = 0.
Proof.
  intros Hrep Hpos. rewrite (qload_repr q ts Hrep), (repr_size _ _ Hrep).
  destruct ts as [|t ts]; simpl; [done|].
  apply Forall_cons in Hpos as [Hpt _]. unfold positive_burst in Hpt.
  split; lia.
Qed.

Lemma all_empty_from_wf s order :
  wf s → (∀ qid, qid ∈ order → qid ∈ queue_order s) →
  ∃ b, all_empty_from s order = Ok b ∧
       (b = true ↔ ∀ qid q, qid ∈ order → queues s !! qid = Some q → _size q = 0).
Proof.
  intros Hwf. induction order as [|qid order IH]; intros Hsub; simpl.
  - exists true. split; [done|]. split; [|done]. intros _ qid q Hin.
    by apply elem_of_nil in Hin.
  - assert (Hin : qid ∈ queue_order s) by (apply Hsub; left).
    apply (wf_order s Hwf) in Hin as [q Hq].
    unfold dict_getitem. rewrite Hq. simpl. unfold QueueRR.len.
    destruct (Z.eqb_spec (_size q) 0) as [Hz|Hnz].
    + destruct IH as (b & -> & Hb); [intros; apply Hsub; by right|].
      exists b. split; [done|]. rewrite Hb. split.
      * intros H k q' Hk Hq'. apply elem_of_cons in Hk as [->|Hk]; [congruence|eauto].
      * intros H k q' Hk Hq'. apply (H k); [by right | done].
    + exists false. split; [done|]. split; [done|].
      intros H. exfalso. apply Hnz. apply (H qid); [by left | done].
Qed.

Lemma all_clear_spec s :
  all_clear s = true ↔ ∀ qid b, skip_flags s !! qid = Some b → b = false.
Proof.
  unfold all_clear. rewrite forallb_forall. split.
  - intros H qid b Hb. apply negb_true_iff. apply H.
    apply list_elem_of_In. apply list_elem_of_fmap. exists (qid, b). split; [done|].
    by apply elem_of_map_to_list.
  - intros H b Hin. apply list_elem_of_In, list_elem_of_fmap in Hin as [[qid b'] [-> Hin]].
    apply elem_of_map_to_list in Hin. simpl. by rewrite (H qid b').
Qed.

Lemma quiescent_wf s :
  wf s → ∃ b, quiescent s = Ok b ∧ (b = true ↔ load s = 0%nat).
Proof.
  intros Hwf. unfold quiescent, all_empty.
  destruct (all_empty_from_wf s (queue_order s) Hwf) as (e & -> & He); [done|].
  simpl. eexists; split; [done|].
  rewrite andb_true_iff, He, all_clear_spec. unfold load.
  rewrite Nat.eq_add_0, !msum_zero. split.
  - intros [H1 H2]. split.
    + intros k q Hq. destruct (wf_queues s Hwf k q Hq) as (ts & Hrep & Hpos).
      apply (qload_zero q ts Hrep Hpos). apply (H1 k); [|done].
      apply (wf_order s Hwf). eauto.
    + intros k b Hb. by rewrite (H2 k b Hb).
  - intros [H1 H2]. split.
    + intros k q _ Hq. destruct (wf_queues s Hwf k q Hq) as (ts & Hrep & Hpos).
      apply (qload_zero q ts Hrep Hpos). by apply (H1 k).
    + intros k b Hb. specialize (H2 k b Hb). by destruct b.
Qed.



(** ** The loop of [run] *)

Lemma turns_S quantum k s s1 l1 s2 l2 :
  turn quantum s = Ok (s1, l1) → turns quantum k s1 = Ok (s2, l2) →
  turns quantum (S k) s = Ok (s2, l1 ++ l2).
Proof. intros H1 H2. simpl. rewrite H1. simpl. rewrite H2. done. Qed.

Lemma turns_1 quantum s s1 l1 :
  turn quantum s = Ok (s1, l1) → turns quantum 1 s = Ok (s1, l1).
Proof. intros H1. simpl. rewrite H1. simpl. by rewrite app_nil_r. Qed.

Lemma turn_keeps_n quantum s s' logs :
  turn_outcome quantum s s' logs → n_queues s' = n_queues s.
Proof. intros H. unfold n_queues. by rewrite (turn_outcome_order _ _ _ _ H). Qed.

Lemma turns_wf quantum k s :
  wf s → 0 < n_queues s →
  ∃ s' logs, turns quantum k s = Ok (s', logs) ∧ wf s' ∧
             queue_order s' = queue_order s.
Proof.
  revert s. induction k as [|k IH]; intros s Hwf Hn; simpl.
  - by exists s, [].
  - destruct (turn_wf quantum s Hwf Hn) as (s1 & l1 & -> & Ho & Hwf1). simpl.
    destruct (IH s1 Hwf1) as (s2 & l2 & -> & Hwf2 & Hord).
    { by rewrite (turn_keeps_n _ _ _ _ Ho). }
    simpl. eexists _, _. split; [done|]. split; [done|].
    by rewrite Hord, (turn_outcome_order _ _ _ _ Ho).
Qed.

Lemma run_loop_bounded quantum k :
  ∀ fuel m td s logs,
    wf s → 0 < n_queues s → m - td = Z.of_nat k → (k < fuel)%nat →
    ∃ s' l, turns quantum k s = Ok (s', l) ∧
            run_loop fuel quantum (Some m) td s logs = Ok (s', logs ++ l).
Proof.
  induction k as [|k IH]; intros fuel m td s logs Hwf Hn Hk Hfuel;
    (destruct fuel as [|fuel]; [lia|]); simpl.
  - destruct (Z.geb_spec td m); [|lia]. exists s, []. by rewrite app_nil_r.
  - destruct (Z.geb_spec td m); [lia|].
    destruct (Z.eqb_spec (n_queues s) 0); [lia|].
    destruct (turn_wf quantum s Hwf Hn) as (s1 & l1 & -> & Ho & Hwf1). simpl.
    destruct (IH fuel m (td + 1) s1 (logs ++ l1)) as (s2 & l2 & -> & ->);
      [done|by rewrite (turn_keeps_n _ _ _ _ Ho)|lia|lia|].
    simpl. eexists _, _. split; [done|]. by rewrite app_assoc.
Qed.

Lemma run_loop_open_step quantum fuel td s logs s1 l1 b :
  0 < n_queues s → turn quantum s = Ok (s1, l1) → quiescent s1 = Ok b →
  run_loop (S fuel) quantum None td s logs
  = if b then Ok (s1, logs ++ l1)
    else run_loop fuel quantum None (td + 1) s1 (logs ++ l1).
Proof.
  intros Hn Ht Hb. simpl.
  destruct (Z.eqb_spec (n_queues s) 0); [lia|].
  rewrite Ht. simpl. rewrite Hb. done.
Qed.

(** Whenever the open-ended loop returns, it has performed at least one
    turn and stopped at the first turn that left the dispatcher quiescent. *)
Lemma run_loop_open_stops quantum fuel :
  ∀ td s logs s' logs',
    wf s → 0 < n_queues s →
    run_loop fuel quantum None td s logs = Ok (s', logs') →
    ∃ k l, turns quantum (S k) s = Ok (s', l) ∧ logs' = logs ++ l ∧
           quiescent s' = Ok true ∧
           ∀ j, (j < k)%nat →
             ∃ sj lj, turns quantum (S j) s = Ok (sj, lj) ∧
                      quiescent sj = Ok false.
Proof.
  induction fuel as [|fuel IH]; intros td s logs s' logs' Hwf Hn Hrun; [done|].
  destruct (turn_wf quantum s Hwf Hn) as (s1 & l1 & Ht & Ho & Hwf1).
  destruct (quiescent_wf s1 Hwf1) as (b & Hb & _).
  rewrite (run_loop_open_step _ _ _ _ _ s1 l1 b Hn Ht Hb) in Hrun.
  destruct b.
  - injection Hrun as <- <-. exists 0%nat, l1. split_and!; try done.
    + by apply turns_1.
    + intros j Hj. lia.
  - apply IH in Hrun as (k & l & Hk & -> & Hq & Hfirst);
      [|done|by rewrite (turn_keeps_n _ _ _ _ Ho)].
    exists (S k), (l1 ++ l). split_and!; try done.
    + by apply (turns_S _ _ _ s1).
    + by rewrite app_assoc.
    + intros [|j] Hj.
      * exists s1, l1. split; [|done]. by apply turns_1.
      * destruct (Hfirst j) as (sj & lj & Hj1 & Hj2); [lia|].
        exists sj, (l1 ++ lj). split; [|done]. by apply (turns_S _ _ _ s1).
Qed.




Lemma cursor_distance n p r :
  0 < n → 0 ≤ p < n → 0 ≤ r < n → p ≠ r →
  Z.to_nat ((p - r) `mod` n) = S (Z.to_nat ((p - (r + 1) `mod` n) `mod` n)).
Proof.
  intros Hn Hp Hr Hne.
  rewrite Zminus_mod_idemp_r.
  pose proof (Z.mod_pos_bound (p - r) n Hn).
  assert (Hd : (p - r) `mod` n ≠ 0).
  { intros H0. apply Z.mod_divide in H0; [|lia]. destruct H0 as [k Hk].
    assert (k = 0) by nia. lia. }
  assert (He : (p - r) `mod` n - 1 = (p - (r + 1)) `mod` n).
  { apply (Z.mod_unique_pos _ _ ((p - r) `div` n)); [lia|].
    pose proof (Z.div_mod (p - r) n). lia. }
  rewrite <- He. lia.
Qed.

Section termination.
Variable quantum : Z.
Hypothesis quantum_pos : 1 ≤ quantum.



End termination.

(** ** [run] as a whole *)

Lemma run_no_queues fuel quantum steps s :
  n_queues s = 0 → run fuel quantum steps s = Ok (s, []).
Proof. intros H. unfold run. by rewrite H. Qed.

Lemma run_invalid_steps fuel quantum st s :
  0 < n_queues s → ¬ (1 ≤ st ≤ n_queues s) →
  run fuel quantum (Some st) s = Ok (s, [EvError (time s) invalid_steps]).
Proof.
  intros Hn Hst. unfold run.
  destruct (Z.eqb_spec (n_queues s) 0); [lia|].
  destruct (Z.leb_spec 1 st), (Z.leb_spec st (n_queues s)); simpl; try done. lia.
Qed.

Lemma run_enters_loop fuel quantum steps s :
  wf s → 0 < n_queues s →
  match steps with Some st => 1 ≤ st ≤ n_queues s | None => True end →
  run fuel quantum steps s = run_loop fuel quantum steps 0 s [].
Proof.
  intros Hwf Hn Hst. unfold run.
  destruct (wf_visited s Hwf Hn) as (_ & _ & _ & _ & _ & _ & _ & _ & Hr).
  destruct (Z.eqb_spec (n_queues s) 0); [lia|].
  destruct (Z.geb_spec (rr_index s) (n_queues s)); [lia|].
  destruct steps as [st|]; [|done].
  destruct (Z.leb_spec 1 st), (Z.leb_spec st (n_queues s)); simpl; try done; lia.
Qed.

Lemma run_steps fuel quantum st s :
  wf s → 0 < n_queues s → 1 ≤ st ≤ n_queues s → (Z.to_nat st < fuel)%nat →
  ∃ s' l, turns quantum (Z.to_nat st) s = Ok (s', l) ∧
          run fuel quantum (Some st) s = Ok (s', l).
Proof.
  intros Hwf Hn Hst Hfuel. rewrite run_enters_loop by done.
  destruct (run_loop_bounded quantum (Z.to_nat st) fuel st 0 s [])
    as (s' & l & Ht & Hr); try done; [lia|].
  by exists s', l.
Qed.

(** Whatever the mode, a loop that returns has performed some number of
    turns and nothing else. *)
Lemma run_loop_turns quantum fuel :
  ∀ m td s logs s' logs',
    wf s → run_loop fuel quantum m td s logs = Ok (s', logs') →
    ∃ k l, turns quantum k s = Ok (s', l) ∧ logs' = logs ++ l.
Proof.
  induction fuel as [|fuel IH]; intros m td s logs s' logs' Hwf Hrun; [done|].
  simpl in Hrun.
  destruct (match m with Some m0 => td >=? m0 | None => false end).
  { injection Hrun as <- <-. exists 0%nat, []. by rewrite app_nil_r. }
  destruct (Z.eqb_spec (n_queues s) 0) as [Hz|Hnz].
  { injection Hrun as <- <-. exists 0%nat, []. by rewrite app_nil_r. }
  assert (Hn : 0 < n_queues s) by (unfold n_queues in *; lia).
  destruct (turn_wf quantum s Hwf Hn) as (s1 & l1 & Ht & Ho & Hwf1).
  rewrite Ht in Hrun. simpl in Hrun.
  assert (Hcont : run_loop fuel quantum m (td + 1) s1 (logs ++ l1) = Ok (s', logs') →
                  ∃ k l, turns quantum k s = Ok (s', l) ∧ logs' = logs ++ l).
  { intros H. apply IH in H as (k & l & Hk & ->); [|done].
    exists (S k), (l1 ++ l). split; [by apply (turns_S _ _ _ s1)|].
    by rewrite app_assoc. }
  destruct m as [m0|]; [by apply Hcont|].
  destruct (quiescent_wf s1 Hwf1) as (b & Hb & _). rewrite Hb in Hrun.
  simpl in Hrun. destruct b; [|by apply Hcont].
  injection Hrun as <- <-. exists 1%nat, l1. split; [by apply turns_1 | done].
Qed.

Lemma turns_preserve quantum k s s' l :
  wf s → turns quantum k s = Ok (s', l) → wf s'.
Proof.
  intros Hwf Ht. destruct k as [|k].
  { simpl in Ht. by injection Ht as <- _. }
  destruct (Z.eq_dec (n_queues s) 0) as [Hz|Hnz].
  - exfalso. simpl in Ht. unfold turn in Ht. rewrite Hz in Ht.
    destruct (wf_rr s Hwf) as [H0 _].
    destruct (Z.geb_spec (rr_index s) 0); [|lia]. simpl in Ht. done.
  - assert (Hn : 0 < n_queues s) by (unfold n_queues in *; lia).
    destruct (turns_wf quantum (S k) s Hwf Hn) as (s2 & l2 & Ht2 & Hwf2 & _).
    rewrite Ht in Ht2. by injection Ht2 as -> _.
Qed.

Lemma run_preserves fuel quantum steps s s' logs :
  wf s → run fuel quantum steps s = Ok (s', logs) → wf s'.
Proof.
  intros Hwf Hrun.
  destruct (Z.eq_dec (n_queues s) 0) as [Hz|Hnz].
  { rewrite run_no_queues in Hrun by done. by injection Hrun as <- _. }
  assert (Hn : 0 < n_queues s) by (unfold n_queues in *; lia).
  assert (Hloop : run_loop fuel quantum steps 0 s [] = Ok (s', logs) → wf s').
  { intros H. apply run_loop_turns in H as (k & l & Hk & _); [|done].
    by apply (turns_preserve quantum k s s' l). }
  destruct steps as [st|].
  - destruct (decide (1 ≤ st ≤ n_queues s)) as [Hst|Hst].
    + rewrite run_enters_loop in Hrun by done. by apply Hloop.
    + rewrite run_invalid_steps in Hrun by done. by injection Hrun as <- _.
  - rewrite run_enters_loop in Hrun by done. by apply Hloop.
Qed.

(** ** Reachable states are well formed *)

Lemma display_preserves s s' logs : wf s → display s = Ok (s', logs) → wf s'.
Proof.
  intros Hwf H. destruct (display_wf s Hwf) as (ql & Hd & _).
  rewrite Hd in H. by injection H as <- _.
Qed.

Lemma exec_preserves fuel o s s' logs :
  wf s → exec fuel o s = Ok (s', logs) → wf s'.
Proof.
  intros Hwf H. destruct o as [qid cap|qid item|qid|quantum steps|]; simpl in H.
  - by apply (create_queue_preserves qid cap s s' logs).
  - destruct (Scheduler.enqueue qid item s) as [[[s1 l1] out]| |] eqn:He; try done.
    simpl in H. injection H as <- _. by apply (enqueue_preserves qid item s s1 l1 out).
  - by apply (mark_skip_preserves qid s s' logs).
  - by apply (run_preserves fuel quantum steps s s' logs).
  - by apply (display_preserves s s' logs).
Qed.



Lemma reachable_by_wf P s : reachable_by P s → wf s.
Proof.
  induction 1 as [|s o fuel s' logs _ IH _ Hex]; [apply wf_init|].
  by apply (exec_preserves fuel o s s' logs).
Qed.

Lemma reachable_wf s : reachable s → wf s.
Proof. apply reachable_by_wf. Qed.

Lemma reachable_by_exec_all (P : op → Prop) fuel os :
  ∀ s s' logs,
    reachable_by P s → Forall P os → exec_all fuel os s = Ok (s', logs) →
    reachable_by P s'.
Proof.
  induction os as [|o os IH]; intros s s' logs Hs HP Hex; simpl in Hex.
  - by injection Hex as <- _.
  - apply Forall_cons in HP as [Ho HP].
    destruct (exec fuel o s) as [[s1 l1]| |] eqn:H1; try done. simpl in Hex.
    destruct (exec_all fuel os s1) as [[s2 l2]| |] eqn:H2; try done. simpl in Hex.
    injection Hex as <- _.
    apply (IH s1 s2 l2); [|done..]. by apply (reach_step P s o fuel s1 l1).
Qed.

Lemma reachable_by_state_after (P : op → Prop) os :
  Forall P os → reachable_by P (state_after os).
Proof.
  intros HP. unfold state_after.
  destruct (exec_all 64 os Scheduler.init) as [[s l]| |] eqn:He;
    try apply reach_init.
  apply (reachable_by_exec_all P 64 os Scheduler.init s l); [apply reach_init|done..].
Qed.

Lemma reachable_state_after os : reachable (state_after os).
Proof. apply reachable_by_state_after. by apply Forall_forall. Qed.

(** ** The model on the scenarios of the specification *)

Example scenario_finish :
  rendered (exec_all 8 [OpCreate "A" 2; OpEnqueue "A" "tea"; OpRun 1 None]
              Scheduler.init)
  = ["time=0 event=create queue=A";
     "time=0 event=enqueue queue=A task=A-001 remaining=1";
     "time=0 event=run queue=A";
     "time=1 event=finish queue=A id=A-001";
     "display time=1 next=A";
     "display menu=[americano:2,cappuccino:3,hot_chocolate:4,latte:3,macchiato:2,mocha:4,tea:1]";
     "display A [0/2] -> []"].
Proof. vm_compute; reflexivity. Qed.

Example scenario_skip_round :
  rendered (exec_all 8 [OpCreate "A" 1; OpCreate "B" 1; OpSkip "B"; OpRun 1 (Some 2)]
              Scheduler.init)
  = ["time=0 event=create queue=A";
     "time=0 event=create queue=B";
     "time=0 event=skip queue=B";
     "time=0 event=run queue=A";
     "display time=0 next=A";
     "display menu=[americano:2,cappuccino:3,hot_chocolate:4,latte:3,macchiato:2,mocha:4,tea:1]";
     "display A [0/1] -> []";
     "display B [0/1] skip -> []";
     "time=0 event=run queue=B";
     "display time=0 next=B";
     "display menu=[americano:2,cappuccino:3,hot_chocolate:4,latte:3,macchiato:2,mocha:4,tea:1]";
     "display A [0/1] -> []";
     "display B [0/1] -> []"].
Proof. vm_compute; reflexivity. Qed.

Example scenario_full :
  rendered (exec_all 8 [OpCreate "A" 1; OpEnqueue "A" "americano";
                        OpEnqueue "A" "americano"; OpEnqueue "X" "coffee";
                        OpEnqueue "X" "tea"]
              Scheduler.init)
  = ["time=0 event=create queue=A";
     "time=0 event=enqueue queue=A task=A-001 remaining=2";
     "time=0 event=reject queue=A reason=full";
     "time=0 event=reject queue=X reason=unknown_item";
     "time=0 event=reject queue=X reason=unknown_queue"].
Proof. vm_compute; reflexivity. Qed.

(** * The claims of the specification *)

(** ** Admission *)

(** What a rejected admission does, path by path: the two "unknown" paths
    return the dispatcher untouched; the "full" path keeps the queues and
    the clock but has already advanced the queue's id counter. *)
Lemma rejection_effect qid item s :
  wf s →
  (_menu s !! item = None →
   Scheduler.enqueue qid item s
   = Ok (s, [EvReject (time s) qid unknown_item], ["Sorry, we don't serve that."])) ∧
  (is_Some (_menu s !! item) → queues s !! qid = None →
   Scheduler.enqueue qid item s
   = Ok (s, [EvReject (time s) qid unknown_queue], [])) ∧
  (∀ q, is_Some (_menu s !! item) → queues s !! qid = Some q →
        capacity q ≤ _size q →
        ∃ c, id_counters s !! qid = Some c ∧
             Scheduler.enqueue qid item s
             = Ok (set_id_counters s (<[qid := c + 1]> (id_counters s)),
                   [EvReject (time s) qid full], ["Sorry, we're at capacity."])).
Proof.
  intros Hwf. split_and!.
  - apply enqueue_unknown_item.
  - intros [b Hb]. by apply enqueue_unknown_queue with b.
  - intros q [b Hb] Hq Hfull.
    destruct (proj1 (wf_counters s Hwf qid)) as [c Hc]; [by eauto|].
    exists c. split; [done|]. by apply enqueue_at_capacity with b q.
Qed.

(** C1 (code defect).  Claimed: every rejected admission leaves the whole
    dispatcher state unchanged, counters included.  On a full queue the code
    increments the queue's id counter before it tries the enqueue, so the
    rejection logs its single reject event, keeps queue contents and clock,
    but moves the counter of "A" from 1 to 2. *)
Theorem full_rejection_advances_counter :
  let s := state_after full_queue_session in
  ∃ s', Scheduler.enqueue "A" "tea" s
        = Ok (s', [EvReject 0 "A" full], ["Sorry, we're at capacity."]) ∧
        id_counters s !! "A" = Some 1 ∧ id_counters s' !! "A" = Some 2 ∧
        queues s' = queues s ∧ time s' = time s.
Proof. cbv zeta. eexists. split_and!; vm_compute; reflexivity. Qed.


Lemma create_queue_counter qid cap s s' logs :
  create_queue qid cap s = Ok (s', logs) → id_counters s' !! qid = Some 0.
Proof.
  unfold create_queue. destruct (QueueRR.init qid cap); try done. simpl.
  intros H. injection H as <- _. simpl. apply lookup_insert_eq.
Qed.



(** ** The capacity bound *)

(** C9.  In every reachable state every queue has an occupancy between zero
    and its capacity, equal to the number of tasks it holds; every
    operation leads to a state with the same property; and an enqueue on a
    queue whose occupancy equals its capacity reports failure and returns
    the queue unchanged. *)
Theorem capacity_invariant s qid q :
  reachable s → queues s !! qid = Some q →
  0 ≤ _size q ≤ capacity q ∧ QueueRR.len q = _size q ∧
  (∃ ts, QueueRR.tasks_list q = Ok ts ∧ _size q = Z.of_nat (length ts)) ∧
  (∀ task, _size q = capacity q → QueueRR.enqueue q task = Ok (false, q)) ∧
  (∀ fuel o s' logs qid' q',
     exec fuel o s = Ok (s', logs) → queues s' !! qid' = Some q' →
     0 ≤ _size q' ≤ capacity q').
Proof.
  intros Hreach Hq. apply reachable_wf in Hreach as Hwf.
  assert (Hbound : ∀ s0 k q0, wf s0 → queues s0 !! k = Some q0 →
                     0 ≤ _size q0 ≤ capacity q0).
  { intros s0 k q0 Hwf0 Hq0. destruct (wf_queues s0 Hwf0 k q0 Hq0) as (ts & Hrep & _).
    pose proof (repr_le _ _ Hrep). rewrite (repr_size _ _ Hrep). lia. }
  split_and!; try done.
  - by apply (Hbound s qid q).
  - by apply (Hbound s qid q).
  - destruct (wf_queues s Hwf qid q Hq) as (ts & Hrep & _).
    exists ts. split; [by apply tasks_list_repr | by apply (repr_size _ _ Hrep)].
  - intros task Hfull. apply enqueue_full. lia.
  - intros fuel o s' logs qid' q' Hex Hq'.
    apply (Hbound s' qid' q'); [|done]. by apply (exec_preserves fuel o s s' logs).
Qed.

Lemma capacity_invariant_witness :
  let q := QueueRR.mk "A" 1 [Some (mkTask "A-001" 3)] 0 1 in
  0 ≤ _size q ≤ capacity q ∧ QueueRR.len q = _size q ∧
  (∃ ts, QueueRR.tasks_list q = Ok ts ∧ _size q = Z.of_nat (length ts)) ∧
  (∀ task, _size q = capacity q → QueueRR.enqueue q task = Ok (false, q)) ∧
  (∀ fuel o s' logs qid' q',
     exec fuel o (state_after full_queue_session) = Ok (s', logs) →
     queues s' !! qid' = Some q' → 0 ≤ _size q' ≤ capacity q').
Proof.
  apply (capacity_invariant (state_after full_queue_session) "A").
  - apply reachable_state_after.
  - vm_compute; reflexivity.
Defined.

(** ** Argument checks of [run] *)

(** C4.  With at least one queue, a step count outside [1, number of
    queues] makes [run] log exactly one invalid_steps error and return the
    dispatcher as it was (no turn, same clock, queues, counters, flags and
    cursor); with no queue at all [run] returns at once, logging nothing. *)
Theorem run_rejects_invalid_steps fuel quantum st s :
  (0 < n_queues s → ¬ (1 ≤ st ≤ n_queues s) →
   run fuel quantum (Some st) s = Ok (s, [EvError (time s) invalid_steps])) ∧
  (n_queues s = 0 → ∀ steps, run fuel quantum steps s = Ok (s, [])).
Proof.
  split.
  - apply run_invalid_steps.
  - intros Hn steps. by apply run_no_queues.
Qed.

Lemma run_rejects_invalid_steps_witness :
  run 5 1 (Some 3) (state_after full_queue_session)
  = Ok (state_after full_queue_session, [EvError 0 invalid_steps]) ∧
  run 5 1 (Some 0) (state_after full_queue_session)
  = Ok (state_after full_queue_session, [EvError 0 invalid_steps]) ∧
  run 5 1 None Scheduler.init = Ok (Scheduler.init, []).
Proof.
  split_and!.
  - apply (run_rejects_invalid_steps 5 1 3 (state_after full_queue_session)).
    + vm_compute; reflexivity.
    + change (n_queues (state_after full_queue_session)) with 1. lia.
  - apply (run_rejects_invalid_steps 5 1 0 (state_after full_queue_session)).
    + vm_compute; reflexivity.
    + change (n_queues (state_after full_queue_session)) with 1. lia.
  - apply (run_rejects_invalid_steps 5 1 0 Scheduler.init). reflexivity.
Defined.

(** ** Turns *)

Lemma display_queues_lines s order ql :
  display_queues s order = Ok ql → forallb is_display ql = true.
Proof.
  revert ql. induction order as [|qid order IH]; intros ql; simpl.
  - by intros [= <-].
  - destruct (dict_getitem (queues s) qid); try done. simpl.
    destruct (QueueRR.tasks_list _); try done. simpl.
    destruct (display_queues s order); try done. simpl.
    intros [= <-]. simpl. by apply IH.
Qed.

Lemma display_lines s s' d : display s = Ok (s', d) → forallb is_display d = true.
Proof.
  unfold display. destruct (next_queue s) as [[nxt s1]| |]; try done. simpl.
  destruct (display_queues s1 (queue_order s1)) eqn:Hq; try done. simpl.
  intros [= <- <-]. simpl. by apply (display_queues_lines s1 _ _ Hq).
Qed.





(** The queue operations of a work turn, on the queue the cursor points at. *)
Lemma visited_work_queue s qid q :
  wf s → queues s !! qid = Some q → QueueRR.len q ≠ 0 →
  ∃ t ts, repr q (t :: ts) ∧ positive_burst t.
Proof.
  intros Hwf Hq Hlen. destruct (wf_queues s Hwf qid q Hq) as (ts & Hrep & Hpos).
  destruct ts as [|t ts].
  - unfold QueueRR.len in Hlen. by rewrite (repr_size _ _ Hrep) in Hlen.
  - apply Forall_cons in Hpos as [Hpt _]. eauto.
Qed.



(** C10.  In a work turn the peek and the dequeue return the head task, so
    neither assertion fails, and the re-enqueue of a partially served task
    succeeds; the turn returns normally and, when the task is not finished,
    logs no finish event: the defensive branch is never taken. *)
Theorem defensive_branch_unreachable quantum s qid q :
  reachable s → visited s = Some qid → queues s !! qid = Some q →
  default false (skip_flags s !! qid) = false → QueueRR.len q ≠ 0 →
  ∃ t b q2 q3 s' logs,
    let w := Z.min quantum (remaining t) in
    let t' := Task_set_remaining t (remaining t - w) in
    QueueRR.peek q = Ok (Some t) ∧
    py_setitem (_buf q) (_front q) (Some t') = Ok b ∧
    QueueRR.dequeue (set_buf q b) = Ok (Some t', q2) ∧
    QueueRR.enqueue q2 t' = Ok (true, q3) ∧
    turn quantum s = Ok (s', logs) ∧
    (remaining t' ≠ 0 → ∀ time0 queue0 id0, EvFinish time0 queue0 id0 ∉ logs).
Proof.
  intros Hreach Hv Hq Hf Hlen. apply reachable_wf in Hreach as Hwf.
  assert (Hn : 0 < n_queues s).
  { unfold visited in Hv. apply lookup_lt_Some in Hv. unfold n_queues. lia. }
  destruct (visited_work_queue s qid q Hwf Hq Hlen) as (t & ts & Hrep & _).
  destruct (head_service_steps q t ts
              (Task_set_remaining t (remaining t - quantum `min` remaining t)) Hrep)
    as (b & q2 & q3 & Hpeek & Hb & Hdq & _ & Henq & _).
  destruct (turn_work quantum s qid q t ts Hwf Hn Hv Hf Hq Hrep)
    as (q' & d & _ & _ & _ & Hd & Ht).
  eexists t, b, q2, q3, _, _. cbv zeta.
  split_and!; [done | done | done | done | exact Ht |].
  simpl. intros Hnz time0 queue0 id0 Hin.
  destruct (Z.eqb_spec (remaining t - quantum `min` remaining t) 0); [done|].
  apply display_lines in Hd.
  rewrite !elem_of_cons in Hin. destruct Hin as [Hin|[Hin|Hin]]; try done.
  rewrite forallb_forall in Hd. apply list_elem_of_In, Hd in Hin. done.
Qed.

Lemma defensive_branch_unreachable_witness :
  ∃ t b q2 q3 s' logs,
    let q := QueueRR.mk "A" 2 [Some (mkTask "A-001" 3); None] 0 1 in
    let w := Z.min 1 (remaining t) in
    let t' := Task_set_remaining t (remaining t - w) in
    QueueRR.peek q = Ok (Some t) ∧
    py_setitem (_buf q) (_front q) (Some t') = Ok b ∧
    QueueRR.dequeue (set_buf q b) = Ok (Some t', q2) ∧
    QueueRR.enqueue q2 t' = Ok (true, q3) ∧
    turn 1 (state_after two_queue_session) = Ok (s', logs) ∧
    (remaining t' ≠ 0 → ∀ time0 queue0 id0, EvFinish time0 queue0 id0 ∉ logs).
Proof.
  apply (defensive_branch_unreachable 1 (state_after two_queue_session) "A").
  - apply reachable_state_after.
  - vm_compute; reflexivity.
  - vm_compute; reflexivity.
  - vm_compute; reflexivity.
  - vm_compute. discriminate.
Defined.

(** ** The clock *)











(** ** Termination of [run] *)







(** ** Skip requests *)

Lemma turn_outcome_flag quantum s s' logs qid :
  turn_outcome quantum s s' logs →
  skip_flags s' !! qid
  = if decide (visited s = Some qid ∧ skip_flags s !! qid = Some true)
    then Some false else skip_flags s !! qid.
Proof.
  intros [qid0 d Hv Hf s1 Hd|qid0 q d Hv Hf Hqs Hsz Hd
         |qid0 q t ts q' d Hv Hf Hqs Hrep Hpt w t' ts' ev s2 Hrep' Hcap Hd]; simpl.
  - destruct (decide (qid0 = qid)) as [->|Hne].
    + rewrite lookup_insert_eq. rewrite decide_True; done.
    + rewrite lookup_insert_ne by done. rewrite decide_False; [done|].
      intros [Hv' _]. congruence.
  - rewrite decide_False; [done|]. intros [Hv' Hf'].
    assert (qid0 = qid) as -> by congruence. by rewrite Hf' in Hf.
  - rewrite decide_False; [done|]. intros [Hv' Hf'].
    assert (qid0 = qid) as -> by congruence. by rewrite Hf' in Hf.
Qed.

Lemma no_skip_once_clear quantum qid k :
  ∀ s, wf s → 0 < n_queues s → skip_flags s !! qid = Some false →
    skipped_turns quantum k qid s = 0%nat ∧
    ∃ s' l, turns quantum k s = Ok (s', l) ∧ skip_flags s' !! qid = Some false.
Proof.
  induction k as [|k IH]; intros s Hwf Hn Hf; simpl.
  - split; [done|]. by exists s, [].
  - destruct (turn_wf quantum s Hwf Hn) as (s1 & l1 & Ht & Ho & Hwf1).
    rewrite Ht. simpl.
    assert (Hf1 : skip_flags s1 !! qid = Some false).
    { rewrite (turn_outcome_flag _ _ _ _ qid Ho). by case_decide. }
    destruct (IH s1 Hwf1) as (Hz & s2 & l2 & Hk & Hf2);
      [by rewrite (turn_keeps_n _ _ _ _ Ho)|done|].
    rewrite Hz, Hk. simpl. split.
    + unfold skips. rewrite Hf. simpl. by rewrite andb_false_r.
    + by exists s2, (l1 ++ l2).
Qed.

(** A latched skip is consumed by the first visit of its queue and by no
    other turn. *)
Lemma single_skip quantum qid d :
  ∀ s p k, wf s → 0 < n_queues s → queue_order s !! p = Some qid →
    skip_flags s !! qid = Some true →
    Z.to_nat ((Z.of_nat p - rr_index s) `mod` n_queues s) = d →
    (skipped_turns quantum k qid s ≤ 1)%nat ∧
    ((d < k)%nat →
     skipped_turns quantum k qid s = 1%nat ∧
     ∃ s' l, turns quantum k s = Ok (s', l) ∧ skip_flags s' !! qid = Some false).
Proof.
  induction d as [|d IHd]; intros s p k Hwf Hn Hp Hf Hd;
    (destruct k as [|k]; [simpl; split; [lia|intros; lia]|]);
    destruct (turn_wf quantum s Hwf Hn) as (s1 & l1 & Ht & Ho & Hwf1);
    pose proof (turn_keeps_n _ _ _ _ Ho) as Hn1;
    pose proof (turn_outcome_flag _ _ _ _ qid Ho) as Hf1;
    simpl; rewrite Ht; simpl;
    destruct (wf_visited s Hwf Hn) as (_ & _ & _ & _ & _ & _ & _ & _ & Hr);
    destruct (wf_rr s Hwf) as [Hr0 _];
    assert (Hplt : Z.of_nat p < n_queues s)
      by (apply lookup_lt_Some in Hp; unfold n_queues; lia);
    (destruct (decide (visited s = Some qid)) as [Hv|Hv];
     [ rewrite decide_True in Hf1 by done;
       destruct (no_skip_once_clear quantum qid k s1 Hwf1) as (Hz & s2 & l2 & Hk & Hf2);
         [lia|done|];
       rewrite Hz, Hk; unfold skips; rewrite Hf, bool_decide_eq_true_2 by done;
       simpl; split; [lia|]; intros _; split; [done|]; by exists s2, (l1 ++ l2)
     | rewrite decide_False in Hf1 by (intros [? _]; done);
       assert (Hne : Z.of_nat p ≠ rr_index s)
         by (intros Heq; apply Hv; unfold visited; by rewrite <- Heq, Nat2Z.id);
       rewrite (cursor_distance (n_queues s) (Z.of_nat p) (rr_index s)) in Hd by lia ]).
  - lia.
  - injection Hd as Hd.
    destruct (IHd s1 p k Hwf1) as (Hle & Hex); try (by rewrite ?Hf1).
    + lia.
    + by rewrite (turn_outcome_order _ _ _ _ Ho).
    + rewrite Hn1, (turn_outcome_rr _ _ _ _ Ho). done.
    + unfold skips. rewrite bool_decide_eq_false_2 by done. simpl.
      split; [done|]. intros Hlt.
      destruct Hex as (Hone & s2 & l2 & Hk & Hf2); [lia|].
      rewrite Hk. simpl. split; [done|]. by exists s2, (l1 ++ l2).
Qed.

Lemma set_skip_flags_twice s qid b :
  let s1 := set_skip_flags s (<[qid := b]> (skip_flags s)) in
  set_skip_flags s1 (<[qid := b]> (skip_flags s1)) = s1.
Proof. destruct s. unfold set_skip_flags; simpl. by rewrite insert_insert_eq. Qed.

(** C7.  A skip request always logs exactly one skip event.  For an unknown
    queue id it changes nothing; for a known one it sets that queue's flag.
    Requesting twice gives the same dispatcher as requesting once.  The turn
    that then visits the queue is a zero-time skip turn that clears the
    flag, and among the turns run afterwards exactly one skips that queue
    as soon as a full round has been run (never more than one). *)
Theorem skip_request quantum qid s :
  reachable s →
  ∃ s1,
    mark_skip qid s = Ok (s1, [EvSkip (time s) qid]) ∧
    (queues s !! qid = None → s1 = s) ∧
    (is_Some (queues s !! qid) →
     s1 = set_skip_flags s (<[qid := true]> (skip_flags s))) ∧
    mark_skip qid s1 = Ok (s1, [EvSkip (time s) qid]) ∧
    (is_Some (queues s !! qid) →
     (∀ k, (skipped_turns quantum k qid s1 ≤ 1)%nat) ∧
     (∀ k, (Z.to_nat (n_queues s) ≤ k)%nat →
        skipped_turns quantum k qid s1 = 1%nat ∧
        ∃ s2 l, turns quantum k s1 = Ok (s2, l) ∧
                skip_flags s2 !! qid = Some false) ∧
     (∃ s2 l, run (S (Z.to_nat (n_queues s))) quantum (Some (n_queues s)) s1
              = Ok (s2, l) ∧
              turns quantum (Z.to_nat (n_queues s)) s1 = Ok (s2, l) ∧
              skip_flags s2 !! qid = Some false)) ∧
    (∀ s2, reachable s2 → visited s2 = Some qid →
       skip_flags s2 !! qid = Some true →
       ∃ d, turn quantum s2
            = Ok (advance (set_skip_flags s2 (<[qid := false]> (skip_flags s2))),
                  EvRun (time s2) qid :: d) ∧
            forallb is_display d = true).
Proof.
  intros Hreach. apply reachable_wf in Hreach as Hwf.
  assert (Hturn : ∀ s2, reachable s2 → visited s2 = Some qid →
            skip_flags s2 !! qid = Some true →
            ∃ d, turn quantum s2
                 = Ok (advance (set_skip_flags s2 (<[qid := false]> (skip_flags s2))),
                       EvRun (time s2) qid :: d) ∧
                 forallb is_display d = true).
  { intros s2 Hr2 Hv2 Hf2. apply reachable_wf in Hr2 as Hwf2.
    assert (Hn2 : 0 < n_queues s2).
    { unfold visited in Hv2. apply lookup_lt_Some in Hv2. unfold n_queues. lia. }
    destruct (turn_skip quantum s2 qid Hwf2 Hn2 Hv2 Hf2) as (d & Hd & Ht & _).
    exists d. split; [exact Ht|]. by apply display_lines in Hd. }
  destruct (queues s !! qid) as [q|] eqn:Hq.
  - assert (Hfl : is_Some (skip_flags s !! qid)) by (apply (wf_flags s Hwf); eauto).
    set (s1 := set_skip_flags s (<[qid := true]> (skip_flags s))).
    assert (Hwf1 : wf s1) by by apply wf_set_flag.
    assert (Hf1 : skip_flags s1 !! qid = Some true) by apply lookup_insert_eq.
    assert (Hin : qid ∈ queue_order s) by (apply (wf_order s Hwf); eauto).
    apply list_elem_of_lookup in Hin as [p Hp].
    assert (Hn : 0 < n_queues s).
    { apply lookup_lt_Some in Hp. unfold n_queues. lia. }
    assert (Hdist : (Z.to_nat ((Z.of_nat p - rr_index s1) `mod` n_queues s1)
                     < Z.to_nat (n_queues s))%nat).
    { change (n_queues s1) with (n_queues s).
      pose proof (Z.mod_pos_bound (Z.of_nat p - rr_index s1) (n_queues s) Hn). lia. }
    assert (Hround : ∀ k, (Z.to_nat (n_queues s) ≤ k)%nat →
              skipped_turns quantum k qid s1 = 1%nat ∧
              ∃ s2 l, turns quantum k s1 = Ok (s2, l) ∧
                      skip_flags s2 !! qid = Some false).
    { intros k Hk.
      apply (single_skip quantum qid _ s1 p k Hwf1 Hn Hp Hf1 eq_refl). lia. }
    exists s1. split_and!; try done.
    + by apply mark_skip_known.
    + rewrite mark_skip_known by eauto. do 2 f_equal.
      apply (set_skip_flags_twice s qid true).
    + intros _. split_and!; [|done|].
      * intros k. by apply (single_skip quantum qid _ s1 p k Hwf1 Hn Hp Hf1 eq_refl).
      * destruct (Hround (Z.to_nat (n_queues s)) (le_n _)) as (_ & s2 & l & Hk & Hf2).
        destruct (run_steps (S (Z.to_nat (n_queues s))) quantum (n_queues s) s1)
          as (s3 & l3 & Ht3 & Hr3); try done.
        { change (n_queues s1) with (n_queues s). lia. }
        { lia. }
        exists s3, l3. rewrite Hk in Ht3. injection Ht3 as <- <-. done.
  - assert (Hfl : skip_flags s !! qid = None).
    { destruct (skip_flags s !! qid) eqn:Hf; [|done].
      destruct (proj2 (wf_flags s Hwf qid)) as [q Hq']; [by eauto|congruence]. }
    exists s.
    split_and!; try done; try (by apply mark_skip_unknown); by intros [? ?].
Qed.

Lemma skip_request_witness :
  let s := state_after two_queue_session in
  ∃ s1,
    mark_skip "B" s = Ok (s1, [EvSkip (time s) "B"]) ∧
    (queues s !! "B" = None → s1 = s) ∧
    (is_Some (queues s !! "B") →
     s1 = set_skip_flags s (<["B" := true]> (skip_flags s))) ∧
    mark_skip "B" s1 = Ok (s1, [EvSkip (time s) "B"]) ∧
    (is_Some (queues s !! "B") →
     (∀ k, (skipped_turns 1 k "B" s1 ≤ 1)%nat) ∧
     (∀ k, (Z.to_nat (n_queues s) ≤ k)%nat →
        skipped_turns 1 k "B" s1 = 1%nat ∧
        ∃ s2 l, turns 1 k s1 = Ok (s2, l) ∧ skip_flags s2 !! "B" = Some false) ∧
     (∃ s2 l, run (S (Z.to_nat (n_queues s))) 1 (Some (n_queues s)) s1
              = Ok (s2, l) ∧
              turns 1 (Z.to_nat (n_queues s)) s1 = Ok (s2, l) ∧
              skip_flags s2 !! "B" = Some false)) ∧
    (∀ s2, reachable s2 → visited s2 = Some "B" →
       skip_flags s2 !! "B" = Some true →
       ∃ d, turn 1 s2
            = Ok (advance (set_skip_flags s2 (<["B" := false]> (skip_flags s2))),
                  EvRun (time s2) "B" :: d) ∧
            forallb is_display d = true).
Proof.
  apply (skip_request 1 "B" (state_after two_queue_session)).
  apply reachable_state_after.
Defined.

(** * Further properties of the code *)

(** ** The circular buffer is a bounded FIFO *)

Lemma qstep_fifo cap c q ts :
  repr q ts → capacity q = cap →
  ∃ q', qstep c q = Ok ((fifo_step cap c ts).1, q') ∧
        repr q' (fifo_step cap c ts).2 ∧ capacity q' = cap.
Proof.
  intros Hrep Hcap. destruct c as [task| |]; simpl.
  - destruct (Z.ltb_spec (Z.of_nat (length ts)) cap) as [Hlt|Hge].
    + rewrite <- Hcap in Hlt.
      destruct (enqueue_repr q ts task Hrep Hlt) as (q' & -> & Hrep' & Hc & _).
      exists q'. simpl. split_and!; [done | done | congruence].
    + rewrite enqueue_full by (rewrite (repr_size _ _ Hrep); lia).
      by exists q.
  - destruct ts as [|t ts].
    + rewrite dequeue_empty by apply (repr_size _ _ Hrep). by exists q.
    + destruct (dequeue_repr q t ts Hrep) as (q' & -> & Hrep' & Hc & _).
      exists q'. simpl. split_and!; [done | done | congruence].
  - destruct ts as [|t ts].
    + rewrite peek_empty by apply (repr_size _ _ Hrep). by exists q.
    + rewrite (peek_repr q t ts Hrep). by exists q.
Qed.

Lemma qsteps_fifo cap cs :
  ∀ q ts, repr q ts → capacity q = cap →
    ∃ q', qsteps cs q = Ok ((fifo_steps cap cs ts).1, q') ∧
          repr q' (fifo_steps cap cs ts).2 ∧ capacity q' = cap.
Proof.
  induction cs as [|c cs IH]; intros q ts Hrep Hcap; simpl.
  - by exists q.
  - destruct (qstep_fifo cap c q ts Hrep Hcap) as (q1 & -> & Hrep1 & Hcap1).
    destruct (fifo_step cap c ts) as [r ts1]. simpl in *.
    destruct (IH q1 ts1 Hrep1 Hcap1) as (q2 & -> & Hrep2 & Hcap2).
    destruct (fifo_steps cap cs ts1) as [rs ts2]. simpl in *.
    by exists q2.
Qed.

(** X1.  A queue created with a positive capacity and then used through
    any sequence of enqueue, dequeue and peek calls answers every call as a
    FIFO list bounded by the capacity does; afterwards its length and its
    task listing are those of that list. *)
Theorem queue_is_bounded_fifo qid cap cs :
  0 < cap →
  ∃ q0 q,
    QueueRR.init qid cap = Ok q0 ∧
    qsteps cs q0 = Ok ((fifo_steps cap cs []).1, q) ∧
    QueueRR.tasks_list q = Ok (fifo_steps cap cs []).2 ∧
    QueueRR.len q = Z.of_nat (length (fifo_steps cap cs []).2) ∧
    QueueRR.capacity q = cap.
Proof.
  intros Hcap. destruct (init_repr qid cap Hcap) as (q0 & Hq0 & Hrep0 & Hc0).
  destruct (qsteps_fifo cap cs q0 [] Hrep0 Hc0) as (q & Hq & Hrep & Hc).
  exists q0, q. split_and!; try done.
  - by apply tasks_list_repr.
  - apply (repr_size _ _ Hrep).
Qed.

Lemma queue_is_bounded_fifo_witness :
  let t1 := mkTask "A-001" 3 in
  let t2 := mkTask "A-002" 1 in
  let t3 := mkTask "A-003" 2 in
  let cs := [QEnqueue t1; QEnqueue t2; QEnqueue t3; QDequeue; QEnqueue t3;
             QPeek; QDequeue; QDequeue; QDequeue] in
  ∃ q0 q,
    QueueRR.init "A" 2 = Ok q0 ∧
    qsteps cs q0 = Ok ((fifo_steps 2 cs []).1, q) ∧
    QueueRR.tasks_list q = Ok (fifo_steps 2 cs []).2 ∧
    QueueRR.len q = Z.of_nat (length (fifo_steps 2 cs []).2) ∧
    QueueRR.capacity q = 2.
Proof.
  cbv zeta. apply (queue_is_bounded_fifo "A" 2). lia.
Defined.

(** ** The layout of the buffer *)

Lemma enqueue_explicit q ts task :
  repr q ts → Z.of_nat (length ts) < capacity q →
  QueueRR.enqueue q task
  = Ok (true, set_size (set_buf q (<[slot q (length ts) := Some task]> (_buf q)))
                (_size q + 1)).
Proof.
  intros [Hc Hb Hf Hs Hle Hsl] Hlt. unfold QueueRR.enqueue.
  destruct (Z.geb_spec (_size q) (capacity q)); [lia|].
  rewrite py_mod_pos by done. simpl.
  pose proof (Z.mod_pos_bound (_front q + _size q) (capacity q) Hc) as Hm.
  rewrite py_setitem_in by lia. simpl. unfold slot. by rewrite Hs.
Qed.

Lemma dequeue_explicit q t ts :
  repr q (t :: ts) →
  QueueRR.dequeue q
  = Ok (Some t, set_size (set_front (set_buf q (<[Z.to_nat (_front q) := None]> (_buf q)))
                            ((_front q + 1) `mod` capacity q)) (_size q - 1)).
Proof.
  intros [Hc Hb Hf Hs Hle Hsl]. unfold QueueRR.dequeue.
  simpl in Hs. destruct (Z.eqb_spec (_size q) 0); [lia|].
  rewrite (py_getitem_in _ _ (Some t)); [|lia|]; cycle 1.
  { rewrite <- slot_0 by done. by apply Hsl. }
  simpl. rewrite py_setitem_in by lia. simpl.
  by rewrite py_mod_pos.
Qed.

Lemma offset_of_slot f c n :
  0 < c → 0 ≤ f < c → 0 ≤ n < c → ((f + n) `mod` c - f) `mod` c = n.
Proof.
  intros Hc Hf Hn. rewrite Zminus_mod_idemp_l.
  replace (f + n - f) with n by lia. by apply Z.mod_small.
Qed.

Lemma slot_of_offset f c j :
  0 < c → 0 ≤ j < c → (f + (j - f) `mod` c) `mod` c = j.
Proof.
  intros Hc Hj. rewrite Zplus_mod_idemp_r.
  replace (f + (j - f)) with j by lia. by apply Z.mod_small.
Qed.

Lemma layout_init qid cap q : QueueRR.init qid cap = Ok q → layout q [].
Proof.
  unfold QueueRR.init. destruct (Z.gtb_spec cap 0); [|done].
  intros [= <-] j Hj. simpl in *. rewrite lookup_nil.
  apply lookup_replicate. split; [done | lia].
Qed.

Lemma layout_enqueue q ts task q' :
  repr q ts → layout q ts → Z.of_nat (length ts) < capacity q →
  QueueRR.enqueue q task = Ok (true, q') → layout q' (ts ++ [task]).
Proof.
  intros Hrep Hlay Hlt Henq. rewrite (enqueue_explicit q ts task Hrep Hlt) in Henq.
  injection Henq as <-. destruct Hrep as [Hc Hb Hf Hs Hle Hsl].
  intros j Hj. simpl in *.
  pose proof (Z.mod_pos_bound (Z.of_nat j - _front q) (capacity q) Hc) as Hk.
  destruct (decide (slot q (length ts) = j)) as [<-|Hne].
  - rewrite list_lookup_insert_eq by (pose proof (slot_lt q (length ts) Hc); lia).
    unfold slot.
    pose proof (Z.mod_pos_bound (_front q + Z.of_nat (length ts)) (capacity q) Hc).
    rewrite Z2Nat.id by lia. rewrite offset_of_slot by lia.
    rewrite Nat2Z.id. f_equal. symmetry. apply list_lookup_middle. done.
  - rewrite list_lookup_insert_ne by done. rewrite (Hlay j Hj). f_equal.
    set (k := Z.to_nat ((Z.of_nat j - _front q) `mod` capacity q)).
    destruct (decide (k < length ts)%nat) as [Hkl|Hkl].
    + by rewrite lookup_app_l.
    + rewrite (lookup_ge_None_2 ts k) by lia. symmetry.
      apply lookup_ge_None_2. rewrite length_app. simpl.
      assert (k ≠ length ts); [|lia].
      intros Hkn. apply Hne. unfold slot. rewrite <- Hkn. unfold k.
      rewrite Z2Nat.id by lia. rewrite slot_of_offset by lia. apply Nat2Z.id.
Qed.

Lemma layout_dequeue q t ts t0 q' :
  repr q (t :: ts) → layout q (t :: ts) →
  QueueRR.dequeue q = Ok (t0, q') → layout q' ts.
Proof.
  intros Hrep Hlay Hdq. rewrite (dequeue_explicit q t ts Hrep) in Hdq.
  injection Hdq as _ <-. destruct Hrep as [Hc Hb Hf Hs Hle Hsl].
  intros j Hj. simpl in *.
  pose proof (Z.mod_pos_bound (Z.of_nat j - _front q) (capacity q) Hc) as Hk.
  rewrite Zminus_mod_idemp_r.
  destruct (decide (Z.to_nat (_front q) = j)) as [<-|Hne].
  - rewrite list_lookup_insert_eq by lia. f_equal. symmetry.
    apply lookup_ge_None_2. rewrite Z2Nat.id by lia.
    replace (_front q - (_front q + 1)) with (-1) by lia.
    assert (Hm : (-1) `mod` capacity q = capacity q - 1).
    { symmetry. apply (Z.mod_unique_pos _ _ (-1)); lia. }
    rewrite Hm. lia.
  - rewrite list_lookup_insert_ne by done. rewrite (Hlay j Hj). f_equal.
    assert (Hk0 : (Z.of_nat j - _front q) `mod` capacity q ≠ 0).
    { intros H0. apply Hne.
      pose proof (slot_of_offset (_front q) (capacity q) (Z.of_nat j) Hc) as Hso.
      rewrite H0, Z.add_0_r, Z.mod_small in Hso by lia. lia. }
    assert (He : (Z.of_nat j - (_front q + 1)) `mod` capacity q
                 = (Z.of_nat j - _front q) `mod` capacity q - 1).
    { symmetry. apply (Z.mod_unique_pos _ _ ((Z.of_nat j - _front q) `div` capacity q));
        [lia|].
      pose proof (Z.div_mod (Z.of_nat j - _front q) (capacity q)). lia. }
    rewrite He.
    replace (Z.to_nat ((Z.of_nat j - _front q) `mod` capacity q))
      with (S (Z.to_nat ((Z.of_nat j - _front q) `mod` capacity q - 1))) by lia.
    done.
Qed.

Lemma qsteps_layout cap cs :
  ∀ q ts q' rs, repr q ts → layout q ts → capacity q = cap →
    qsteps cs q = Ok (rs, q') → layout q' (fifo_steps cap cs ts).2.
Proof.
  induction cs as [|c cs IH]; intros q ts q' rs Hrep Hlay Hcap Hq; simpl in *.
  - by injection Hq as _ <-.
  - destruct (qstep_fifo cap c q ts Hrep Hcap) as (q1 & Hq1 & Hrep1 & Hcap1).
    rewrite Hq1 in Hq. simpl in Hq.
    assert (Hlay1 : layout q1 (fifo_step cap c ts).2).
    { destruct c as [task| |]; simpl in *.
      - destruct (Z.ltb_spec (Z.of_nat (length ts)) cap) as [Hlt|Hge]; simpl in *.
        + destruct (QueueRR.enqueue q task) as [[ok q2]| |] eqn:He; try done.
          simpl in Hq1. injection Hq1 as -> ->.
          apply (layout_enqueue q ts task q1 Hrep Hlay); [lia | done].
        + rewrite enqueue_full in Hq1 by (rewrite (repr_size _ _ Hrep); lia).
          simpl in Hq1. by injection Hq1 as <-.
      - destruct ts as [|t ts]; simpl in *.
        + rewrite dequeue_empty in Hq1 by apply (repr_size _ _ Hrep).
          simpl in Hq1. by injection Hq1 as <-.
        + destruct (QueueRR.dequeue q) as [[t0 q2]| |] eqn:He; try done.
          simpl in Hq1. injection Hq1 as -> ->.
          by apply (layout_dequeue q t ts (Some t) q1).
      - destruct (QueueRR.peek q); try done. simpl in Hq1. by injection Hq1 as _ <-. }
    destruct (fifo_step cap c ts) as [r ts1]. simpl in *.
    destruct (qsteps cs q1) as [[rs1 q2]| |] eqn:Hq2; try done. simpl in Hq.
    injection Hq as _ <-.
    specialize (IH q1 ts1 q2 rs1 Hrep1 Hlay1 Hcap1 Hq2).
    by destruct (fifo_steps cap cs ts1).
Qed.

(** X2.  However a queue has been used, its buffer holds the queued tasks
    and nothing else: the slot at distance d from the front index (modulo
    the capacity) holds the d-th queued task, and every slot at a distance
    of at least the queue's length is [None] (a dequeued task is not kept
    in its slot). *)
Theorem buffer_holds_only_queued_tasks qid cap cs q0 q rs (j : nat) :
  QueueRR.init qid cap = Ok q0 → qsteps cs q0 = Ok (rs, q) →
  Z.of_nat j < cap →
  ∃ ts d, QueueRR.tasks_list q = Ok ts ∧
          d = Z.to_nat ((Z.of_nat j - _front q) `mod` cap) ∧
          _buf q !! j = Some (ts !! d) ∧
          (_buf q !! j = Some None ↔ QueueRR.len q ≤ Z.of_nat d).
Proof.
  intros Hinit Hq Hj.
  assert (Hcap : 0 < cap).
  { unfold QueueRR.init in Hinit. by destruct (Z.gtb_spec cap 0). }
  destruct (init_repr qid cap Hcap) as (q0' & Hq0 & Hrep0 & Hc0).
  rewrite Hinit in Hq0. injection Hq0 as <-.
  destruct (qsteps_fifo cap cs q0 [] Hrep0 Hc0) as (q' & Hq' & Hrep & Hc).
  rewrite Hq in Hq'. injection Hq' as _ <-.
  pose proof (qsteps_layout cap cs q0 [] q rs Hrep0
                (layout_init qid cap q0 Hinit) Hc0 Hq) as Hlay.
  eexists _, _. split; [by apply tasks_list_repr|]. split; [done|].
  subst cap. rewrite <- Hc in *. rewrite (Hlay j Hj). split; [done|].
  unfold QueueRR.len. rewrite (repr_size _ _ Hrep).
  split.
  - intros [= Hn]. apply lookup_ge_None in Hn. lia.
  - intros Hn. f_equal. apply lookup_ge_None_2. lia.
Qed.

Lemma buffer_holds_only_queued_tasks_witness :
  let t1 := mkTask "A-001" 3 in
  let t2 := mkTask "A-002" 1 in
  let q := QueueRR.mk "A" 2 [None; Some t2] 1 1 in
  ∃ ts d, QueueRR.tasks_list q = Ok ts ∧
          d = Z.to_nat ((Z.of_nat 0 - _front q) `mod` 2) ∧
          _buf q !! 0%nat = Some (ts !! d) ∧
          (_buf q !! 0%nat = Some None ↔ QueueRR.len q ≤ Z.of_nat d).
Proof.
  cbv zeta.
  apply (buffer_holds_only_queued_tasks "A" 2
           [QEnqueue (mkTask "A-001" 3); QEnqueue (mkTask "A-002" 1); QDequeue]
           (QueueRR.mk "A" 2 [None; None] 0 0)
           (QueueRR.mk "A" 2 [None; Some (mkTask "A-002" 1)] 1 1)
           [REnqueue true; REnqueue true; RTask (Some (mkTask "A-001" 3))] 0).
  - reflexivity.
  - reflexivity.
  - simpl; lia.
Defined.

(** ** Exceptions *)



(** ** Creating queues *)




(** ** The cursor *)

(** X5.  [next_queue] repairs any cursor: whatever integer [rr_index]
    holds, as soon as there is a queue the call returns the id at index
    [max(0, rr_index) mod number_of_queues] of the order and leaves
    [rr_index] at that index, changing nothing else; with no queue it
    returns [None] and changes nothing. *)
Theorem next_queue_normalises s :
  (queue_order s = [] → next_queue s = Ok (None, s)) ∧
  (queue_order s ≠ [] →
   let r := Z.max 0 (rr_index s) `mod` n_queues s in
   ∃ qid, next_queue s = Ok (Some qid, set_rr_index s r) ∧
          0 ≤ r < n_queues s ∧
          queue_order s !! Z.to_nat r = Some qid).
Proof.
  split.
  - intros Ho. unfold next_queue. by rewrite Ho.
  - intros Ho r.
    assert (Hn : 0 < n_queues s).
    { unfold n_queues. destruct (queue_order s); [done | simpl; lia]. }
    pose proof (Z.mod_pos_bound (Z.max 0 (rr_index s)) (n_queues s) Hn) as Hr.
    fold r in Hr.
    destruct (lookup_lt_is_Some_2 (queue_order s) (Z.to_nat r)) as [qid Hqid].
    { unfold n_queues in Hr. lia. }
    exists qid. split_and!; try done; try lia.
    assert (Hbody : next_queue s
      = let s1 := if rr_index s <? 0 then set_rr_index s 0 else s in
        let* s2 :=
          if rr_index s1 >=? n_queues s1 then
            let* r := py_mod (rr_index s1) (n_queues s1) in Ok (set_rr_index s1 r)
          else Ok s1 in
        let* qid := py_getitem (queue_order s2) (rr_index s2) in
        Ok (Some qid, s2)).
    { unfold next_queue. by destruct (queue_order s). }
    rewrite Hbody. clear Hbody. cbv zeta.
    destruct (Z.ltb_spec (rr_index s) 0) as [Hneg|Hnn].
    + assert (r = 0) as Hr0.
      { unfold r. rewrite Z.max_l by lia. by apply Z.mod_0_l; lia. }
      change (rr_index (set_rr_index s 0)) with 0.
      change (n_queues (set_rr_index s 0)) with (n_queues s).
      destruct (Z.geb_spec 0 (n_queues s)); [lia|]. simpl.
      rewrite Hr0 in *.
      rewrite (py_getitem_in _ _ qid); [done | done | done].
    + destruct (Z.geb_spec (rr_index s) (n_queues s)) as [Hge|Hlt].
      * rewrite py_mod_pos by done. simpl.
        assert (r = rr_index s `mod` n_queues s) as Hr1
          by (unfold r; by rewrite Z.max_r by lia).
        rewrite <- Hr1.
        rewrite (py_getitem_in _ _ qid); [done | lia | done].
      * simpl.
        assert (r = rr_index s) as Hr1.
        { unfold r. rewrite Z.max_r by lia. apply Z.mod_small. lia. }
        rewrite Hr1 in *.
        rewrite (py_getitem_in _ _ qid); [|lia|done]. simpl.
        by destruct s.
Qed.

Lemma next_queue_normalises_witness :
  let s := set_rr_index (state_after two_queue_session) 7 in
  (queue_order s = [] → next_queue s = Ok (None, s)) ∧
  (queue_order s ≠ [] →
   let r := Z.max 0 (rr_index s) `mod` n_queues s in
   ∃ qid, next_queue s = Ok (Some qid, set_rr_index s r) ∧
          0 ≤ r < n_queues s ∧
          queue_order s !! Z.to_nat r = Some qid).
Proof.
  apply (next_queue_normalises (set_rr_index (state_after two_queue_session) 7)).
Defined.

(** ** The snapshot *)

Lemma display_queues_structure s order :
  wf s → (∀ qid, qid ∈ order → qid ∈ queue_order s) →
  ∃ ql, display_queues s order = Ok ql ∧ length ql = length order ∧
        ∀ i qid, order !! i = Some qid →
          ∃ q ts, queues s !! qid = Some q ∧ QueueRR.tasks_list q = Ok ts ∧
                  ql !! i = Some (queue_line s qid q ts).
Proof.
  intros Hwf. induction order as [|qid order IH]; intros Hsub; simpl.
  - exists []. split_and!; try done.
  - assert (Hin : qid ∈ queue_order s) by (apply Hsub; left).
    apply (wf_order s Hwf) in Hin as [q Hq].
    destruct (wf_queues s Hwf qid q Hq) as (ts & Hrep & _).
    unfold dict_getitem. rewrite Hq. simpl.
    rewrite (tasks_list_repr q ts Hrep). simpl.
    destruct IH as (ql & -> & Hlen & Hql); [intros; apply Hsub; by right|].
    simpl. eexists; split; [done|]. split; [simpl; by rewrite Hlen|].
    intros [|i] k Hk; simpl in *.
    + injection Hk as <-. exists q, ts.
      split_and!; [done | by apply tasks_list_repr |].
      unfold queue_line, QueueRR.len. by rewrite (repr_size _ _ Hrep).
    + by apply Hql.
Qed.

(** X6.  In a reachable state [display] changes nothing and returns the
    time/next line, the menu line and then exactly one line per entry of
    the round-robin order, in that order, each giving the queue's
    occupancy, capacity, pending skip and its tasks from head to tail with
    their remaining bursts. *)
Theorem display_is_pure_snapshot s :
  reachable s →
  ∃ ql,
    display s
    = Ok (s, DisplayHead (time s) (visited s)
               :: DisplayMenu (sorted_menu (_menu s)) :: ql) ∧
    length ql = length (queue_order s) ∧
    ∀ i qid, queue_order s !! i = Some qid →
      ∃ q ts, queues s !! qid = Some q ∧ QueueRR.tasks_list q = Ok ts ∧
              QueueRR.len q = Z.of_nat (length ts) ∧
              ql !! i = Some (queue_line s qid q ts).
Proof.
  intros Hreach. apply reachable_wf in Hreach as Hwf.
  destruct (display_queues_structure s (queue_order s) Hwf) as (ql & Hd & Hlen & Hql);
    [done|].
  exists ql. split_and!; try done.
  - unfold display. rewrite next_queue_wf by done. simpl. by rewrite Hd.
  - intros i qid Hi. destruct (Hql i qid Hi) as (q & ts & Hq & Hts & Hline).
    exists q, ts. split_and!; try done.
    destruct (wf_queues s Hwf qid q Hq) as (ts0 & Hrep & _).
    rewrite (tasks_list_repr q ts0 Hrep) in Hts. injection Hts as <-.
    apply (repr_size _ _ Hrep).
Qed.

Lemma display_is_pure_snapshot_witness :
  let s := state_after two_queue_session in
  ∃ ql,
    display s
    = Ok (s, DisplayHead (time s) (visited s)
               :: DisplayMenu (sorted_menu (_menu s)) :: ql) ∧
    length ql = length (queue_order s) ∧
    ∀ i qid, queue_order s !! i = Some qid →
      ∃ q ts, queues s !! qid = Some q ∧ QueueRR.tasks_list q = Ok ts ∧
              QueueRR.len q = Z.of_nat (length ts) ∧
              ql !! i = Some (queue_line s qid q ts).
Proof.
  apply (display_is_pure_snapshot (state_after two_queue_session)).
  apply reachable_state_after.
Defined.

#[local] Instance item_le_total : Total item_le.
Proof.
  intros [k1 v1] [k2 v2]. unfold item_le. simpl.
  destruct (String.leb_total k1 k2) as [H|H]; rewrite H; [by left | by right].
Qed.


(** ** What [run] preserves *)

(** A relation that holds across every turn holds across [run]. *)
Lemma turns_relate (R : Scheduler.t → Scheduler.t → Prop) quantum :
  (∀ s, R s s) → (∀ a b c, R a b → R b c → R a c) →
  (∀ s s' l, wf s → turn_outcome quantum s s' l → R s s') →
  ∀ k s s' l, wf s → turns quantum k s = Ok (s', l) → R s s'.
Proof.
  intros Hrefl Htrans Hturn. induction k as [|k IH]; intros s s' l Hwf Ht.
  - simpl in Ht. injection Ht as <- _. apply Hrefl.
  - destruct (Z.eq_dec (n_queues s) 0) as [Hz|Hnz].
    + exfalso. simpl in Ht. unfold turn in Ht. rewrite Hz in Ht.
      destruct (wf_rr s Hwf) as [H0 _].
      destruct (Z.geb_spec (rr_index s) 0); [|lia]. simpl in Ht. done.
    + assert (Hn : 0 < n_queues s) by (unfold n_queues in *; lia).
      destruct (turn_wf quantum s Hwf Hn) as (s1 & l1 & Ht1 & Ho & Hwf1).
      simpl in Ht. rewrite Ht1 in Ht. simpl in Ht.
      destruct (turns quantum k s1) as [[s2 l2]| |] eqn:Hk; try done.
      injection Ht as <- _.
      apply (Htrans s s1 s2); [by apply (Hturn s s1 l1) | by apply (IH s1 s2 l2)].
Qed.

Lemma run_relate (R : Scheduler.t → Scheduler.t → Prop) fuel quantum steps :
  (∀ s, R s s) → (∀ a b c, R a b → R b c → R a c) →
  (∀ s s' l, wf s → turn_outcome quantum s s' l → R s s') →
  ∀ s s' logs, wf s → run fuel quantum steps s = Ok (s', logs) → R s s'.
Proof.
  intros Hrefl Htrans Hturn s s' logs Hwf Hrun.
  destruct (Z.eq_dec (n_queues s) 0) as [Hz|Hnz].
  { rewrite run_no_queues in Hrun by done. injection Hrun as <- _. apply Hrefl. }
  assert (Hn : 0 < n_queues s) by (unfold n_queues in *; lia).
  assert (Hloop : run_loop fuel quantum steps 0 s [] = Ok (s', logs) → R s s').
  { intros H. apply run_loop_turns in H as (k & l & Hk & _); [|done].
    by apply (turns_relate R quantum Hrefl Htrans Hturn k s s' l). }
  destruct steps as [st|].
  - destruct (decide (1 ≤ st ≤ n_queues s)) as [Hst|Hst].
    + rewrite run_enters_loop in Hrun by done. by apply Hloop.
    + rewrite run_invalid_steps in Hrun by done. injection Hrun as <- _. apply Hrefl.
  - rewrite run_enters_loop in Hrun by done. by apply Hloop.
Qed.

(** X8.  A run never creates or removes a queue and never changes a
    capacity, the round-robin order, an id counter or the menu; and it
    never latches a skip: a flag that is set after the run was set
    before it. *)
Theorem run_frame fuel quantum steps s s' logs :
  reachable s → run fuel quantum steps s = Ok (s', logs) →
  queue_order s' = queue_order s ∧ id_counters s' = id_counters s ∧
  _menu s' = _menu s ∧
  (∀ qid, QueueRR.capacity <$> queues s' !! qid
          = QueueRR.capacity <$> queues s !! qid) ∧
  (∀ qid, is_Some (skip_flags s' !! qid) ↔ is_Some (skip_flags s !! qid)) ∧
  (∀ qid, skip_flags s' !! qid = Some true → skip_flags s !! qid = Some true).
Proof.
  intros Hreach Hrun. apply reachable_wf in Hreach as Hwf.
  apply (run_relate (λ a b,
           queue_order b = queue_order a ∧ id_counters b = id_counters a ∧
           _menu b = _menu a ∧
           (∀ qid, QueueRR.capacity <$> queues b !! qid
                   = QueueRR.capacity <$> queues a !! qid) ∧
           (∀ qid, is_Some (skip_flags b !! qid) ↔ is_Some (skip_flags a !! qid)) ∧
           (∀ qid, skip_flags b !! qid = Some true → skip_flags a !! qid = Some true))
           fuel quantum steps) with logs; try done.
  - intros a b c (Ho1 & Hc1 & Hm1 & Hq1 & Hd1 & Hf1) (Ho2 & Hc2 & Hm2 & Hq2 & Hd2 & Hf2).
    split_and!; try congruence.
    + intros qid. by rewrite Hd2, Hd1.
    + intros qid H. by apply Hf1, Hf2.
  - intros a b l Hwfa
      [qid d Hv Hf s1 Hd|qid q d Hv Hf Hqs Hsz Hd
      |qid q t ts q' d Hv Hf Hqs Hrep Hpt w t' ts' ev s2 Hrep' Hcap Hd];
      simpl; split_and!; try done.
    + intros k. rewrite lookup_insert_is_Some.
      destruct (decide (qid = k)) as [<-|]; naive_solver.
    + intros k Hk. apply lookup_insert_Some in Hk as [[_ ?]|[_ Hk]]; done.
    + intros k. destruct (decide (qid = k)) as [<-|Hne].
      * rewrite lookup_insert_eq, Hqs. simpl. by rewrite Hcap.
      * by rewrite lookup_insert_ne.
Qed.

Lemma run_frame_witness :
  let s := state_after two_queue_session in
  let s' := state_after (two_queue_session ++ [OpRun 2 (Some 1)]) in
  queue_order s' = queue_order s ∧ id_counters s' = id_counters s ∧
  _menu s' = _menu s ∧
  (∀ qid, QueueRR.capacity <$> queues s' !! qid
          = QueueRR.capacity <$> queues s !! qid) ∧
  (∀ qid, is_Some (skip_flags s' !! qid) ↔ is_Some (skip_flags s !! qid)) ∧
  (∀ qid, skip_flags s' !! qid = Some true → skip_flags s !! qid = Some true).
Proof.
  apply (run_frame 4 2 (Some 1) (state_after two_queue_session)
           (state_after (two_queue_session ++ [OpRun 2 (Some 1)]))
           [EvRun 0 "A"; EvWork 2 "A" "A-001" 1; DisplayHead 2 (Some "B");
            DisplayMenu (sorted_menu REQUIRED_MENU);
            DisplayQueue "A" 1 2 false [("A-001", 1)];
            DisplayQueue "B" 0 1 false []]).
  - apply reachable_state_after.
  - vm_compute; reflexivity.
Defined.

Lemma run_keeps_order fuel quantum steps s s' logs :
  wf s → run fuel quantum steps s = Ok (s', logs) →
  queue_order s' = queue_order s.
Proof.
  intros Hwf Hrun.
  apply (run_relate (λ a b, queue_order b = queue_order a) fuel quantum steps)
    with logs; try done.
  - intros a b c Hab Hbc. congruence.
  - by intros a b l Hwfa [].
Qed.

(** X9.  The round-robin order is append-only: no call removes or
    reorders an entry, and only [create_queue] adds one, at the end. *)
Theorem queue_order_append_only fuel o s s' logs :
  reachable s → exec fuel o s = Ok (s', logs) →
  queue_order s'
  = queue_order s ++ match o with OpCreate qid _ => [qid] | _ => [] end.
Proof.
  intros Hreach H. apply reachable_wf in Hreach as Hwf.
  destruct o as [qid cap|qid item|qid|quantum steps|]; simpl in H;
    rewrite ?app_nil_r.
  - unfold create_queue in H. destruct (QueueRR.init qid cap); try done.
    simpl in H. by injection H as <- _.
  - destruct (Scheduler.enqueue qid item s) as [[[s1 l1] out]| |] eqn:He; try done.
    simpl in H. injection H as <- _.
    destruct (_menu s !! item) as [burst|] eqn:Hm; cycle 1.
    { rewrite enqueue_unknown_item in He by done. by injection He as <- _ _. }
    destruct (queues s !! qid) as [q|] eqn:Hq; cycle 1.
    { rewrite (enqueue_unknown_queue _ _ _ burst) in He by done. by injection He as <- _ _. }
    destruct (proj1 (wf_counters s Hwf qid)) as [c Hc]; [by eauto|].
    destruct (wf_queues s Hwf qid q Hq) as (ts & Hrep & Hpos).
    destruct (Z.le_gt_cases (capacity q) (_size q)) as [Hfull|Hfree].
    + rewrite (enqueue_at_capacity _ _ _ burst q c) in He by done.
      by injection He as <- _ _.
    + rewrite (repr_size _ _ Hrep) in Hfree.
      destruct (enqueue_accepted qid item s burst q ts c Hm Hq Hc Hrep Hfree)
        as (q' & _ & _ & _ & Heq).
      rewrite Heq in He. by injection He as <- _ _.
  - unfold mark_skip in H. destruct (skip_flags s !! qid); by injection H as <- _.
  - by apply (run_keeps_order fuel quantum steps s s' logs).
  - destruct (display_wf s Hwf) as (ql & Hd & _). rewrite Hd in H.
    by injection H as <- _.
Qed.

Lemma queue_order_append_only_witness :
  queue_order (state_after (two_queue_session ++ [OpCreate "A" 3]))
  = queue_order (state_after two_queue_session) ++ ["A"].
Proof.
  apply (queue_order_append_only 4 (OpCreate "A" 3)
           (state_after two_queue_session)
           (state_after (two_queue_session ++ [OpCreate "A" 3]))
           [EvCreate 0 "A"]).
  - apply reachable_state_after.
  - vm_compute; reflexivity.
Defined.

Lemma run_as_turns fuel quantum steps s s' logs :
  wf s → 0 < n_queues s → run fuel quantum steps s = Ok (s', logs) →
  (∃ k, turns quantum k s = Ok (s', logs)) ∨
  (s' = s ∧ logs = [EvError (time s) invalid_steps]).
Proof.
  intros Hwf Hn Hrun.
  assert (Hloop : run_loop fuel quantum steps 0 s [] = Ok (s', logs) →
                  ∃ k, turns quantum k s = Ok (s', logs)).
  { intros H. apply run_loop_turns in H as (k & l & Hk & ->); [|done]. by exists k. }
  destruct steps as [st|].
  - destruct (decide (1 ≤ st ≤ n_queues s)) as [Hst|Hst].
    + rewrite run_enters_loop in Hrun by done. left. by apply Hloop.
    + rewrite run_invalid_steps in Hrun by done. injection Hrun as <- <-. by right.
  - rewrite run_enters_loop in Hrun by done. left. by apply Hloop.
Qed.

(** ** Conservation of work *)

Lemma turn_outcome_owed quantum s s' l :
  turn_outcome quantum s s' l → time s' + owed s' = time s + owed s.
Proof.
  intros [qid d Hv Hf s1 Hd|qid q d Hv Hf Hqs Hsz Hd
         |qid q t ts q' d Hv Hf Hqs Hrep Hpt w t' ts' ev s2 Hrep' Hcap Hd];
    try done.
  unfold s2, owed; simpl.
  pose proof (msum_insert qload (queues s) qid q q' Hqs) as H.
  rewrite (qload_repr _ _ Hrep), (qload_repr _ _ Hrep') in H. simpl in H.
  unfold positive_burst in Hpt. unfold ts' in H.
  destruct (Z.eqb_spec (remaining t') 0) as [Hz|Hnz].
  - simpl in Hz. unfold w in *. lia.
  - simpl in Hnz. rewrite sum_list_with_app in H. simpl in H. unfold w in *. lia.
Qed.

(** X10.  Across a run that returns, whatever the quantum, the clock plus
    the service still owed to the queued tasks is unchanged: the clock
    moves by exactly the burst taken off the tasks.  A run without step
    limit on at least one queue therefore returns with nothing owed and
    the clock advanced by the total burst that was queued. *)
Theorem run_conserves_work fuel quantum steps s s' logs :
  reachable s → run fuel quantum steps s = Ok (s', logs) →
  time s' + owed s' = time s + owed s ∧
  (steps = None → 0 < n_queues s → owed s' = 0 ∧ time s' = time s + owed s).
Proof.
  intros Hreach Hrun. apply reachable_wf in Hreach as Hwf.
  assert (Hcons : time s' + owed s' = time s + owed s).
  { apply (run_relate (λ a b, time b + owed b = time a + owed a)
             fuel quantum steps) with logs; try done.
    - intros a b c H1 H2. lia.
    - intros a b l _ Ho. by apply (turn_outcome_owed quantum a b l). }
  split; [done|]. intros -> Hn.
  rewrite run_enters_loop in Hrun by done.
  pose proof Hrun as Hrun'.
  apply run_loop_open_stops in Hrun' as (k & l & Hk & _ & Hq & _); try done.
  apply run_loop_turns in Hrun as (k' & l' & Hk' & _); [|done].
  pose proof (turns_preserve quantum k' s s' l' Hwf Hk') as Hwf'.
  destruct (quiescent_wf s' Hwf') as (b & Hb & Hiff).
  rewrite Hq in Hb. injection Hb as <-.
  assert (Hl : load s' = 0%nat) by by apply Hiff.
  assert (Ho : owed s' = 0) by (unfold owed, load in *; lia).
  lia.
Qed.

Lemma run_conserves_work_witness :
  let s := state_after two_queue_session in
  let s' := state_after (two_queue_session ++ [OpRun 2 (Some 1)]) in
  time s' + owed s' = time s + owed s ∧
  (Some 1 = None → 0 < n_queues s → owed s' = 0 ∧ time s' = time s + owed s).
Proof.
  apply (run_conserves_work 4 2 (Some 1) (state_after two_queue_session)
           (state_after (two_queue_session ++ [OpRun 2 (Some 1)]))
           [EvRun 0 "A"; EvWork 2 "A" "A-001" 1; DisplayHead 2 (Some "B");
            DisplayMenu (sorted_menu REQUIRED_MENU);
            DisplayQueue "A" 1 2 false [("A-001", 1)];
            DisplayQueue "B" 0 1 false []]).
  - apply reachable_state_after.
  - vm_compute; reflexivity.
Defined.

(** ** Round-robin visiting order *)

Lemma run_queues_app l1 l2 : run_queues (l1 ++ l2) = run_queues l1 ++ run_queues l2.
Proof.
  induction l1 as [|l l1 IH]; simpl; [done|]. destruct l; simpl; by rewrite ?IH.
Qed.

Lemma run_queues_display d : forallb is_display d = true → run_queues d = [].
Proof.
  induction d as [|l d IH]; simpl; [done|].
  intros [Hl Hd]%andb_true_iff. destruct l; try done; by apply IH.
Qed.

Lemma turn_outcome_run_queues quantum s s' logs :
  turn_outcome quantum s s' logs →
  ∃ qid, visited s = Some qid ∧ run_queues logs = [qid].
Proof.
  intros [qid d Hv Hf s1 Hd|qid q d Hv Hf Hqs Hsz Hd
         |qid q t ts q' d Hv Hf Hqs Hrep Hpt w t' ts' ev s2 Hrep' Hcap Hd];
    apply display_lines, run_queues_display in Hd; exists qid; simpl;
    rewrite ?Hd; try done.
  unfold ev. destruct (_ =? _); simpl; rewrite ?Hd; done.
Qed.

Lemma turns_visit_order quantum k :
  ∀ s s' l, wf s → 0 < n_queues s → turns quantum k s = Ok (s', l) →
    rr_index s' = (rr_index s + Z.of_nat k) `mod` n_queues s ∧
    length (run_queues l) = k ∧
    ∀ i, (i < k)%nat →
      run_queues l !! i
      = queue_order s !! Z.to_nat ((rr_index s + Z.of_nat i) `mod` n_queues s).
Proof.
  induction k as [|k IH]; intros s s' l Hwf Hn Ht.
  - simpl in Ht. injection Ht as <- <-.
    destruct (wf_visited s Hwf Hn) as (_ & _ & _ & _ & _ & _ & _ & _ & Hr).
    destruct (wf_rr s Hwf) as [Hr0 _].
    split_and!; [|done|intros; lia].
    rewrite Z.add_0_r. symmetry. apply Z.mod_small. lia.
  - destruct (turn_wf quantum s Hwf Hn) as (s1 & l1 & Ht1 & Ho & Hwf1).
    simpl in Ht. rewrite Ht1 in Ht. simpl in Ht.
    destruct (turns quantum k s1) as [[s2 l2]| |] eqn:Hk; try done.
    injection Ht as <- <-.
    pose proof (turn_keeps_n _ _ _ _ Ho) as Hn1.
    destruct (IH s1 s2 l2 Hwf1) as (Hrr & Hlen & Hvis); [lia|done|].
    destruct (turn_outcome_run_queues _ _ _ _ Ho) as (qid & Hv & Hrq).
    rewrite (turn_outcome_rr _ _ _ _ Ho), Hn1 in Hrr, Hvis.
    rewrite (turn_outcome_order _ _ _ _ Ho) in Hvis.
    destruct (wf_visited s Hwf Hn) as (_ & _ & _ & _ & _ & _ & _ & _ & Hr).
    destruct (wf_rr s Hwf) as [Hr0 _].
    rewrite run_queues_app, Hrq. split_and!.
    + rewrite Hrr, Zplus_mod_idemp_l. f_equal. lia.
    + simpl. by rewrite Hlen.
    + intros [|i] Hi; simpl.
      * rewrite Z.add_0_r, Z.mod_small by lia. by rewrite <- Hv.
      * rewrite Hvis by lia. rewrite Zplus_mod_idemp_l. do 3 f_equal. lia.
Qed.

(** X11.  A run visits the queues in creation order, cyclically, starting
    at the cursor: its i-th run event names the entry of the round-robin
    order at index (cursor + i) modulo the number of queues, and it leaves
    the cursor advanced by the number of turns it performed. *)
Theorem run_visits_in_order fuel quantum steps s s' logs :
  reachable s → 0 < n_queues s → run fuel quantum steps s = Ok (s', logs) →
  rr_index s'
  = (rr_index s + Z.of_nat (length (run_queues logs))) `mod` n_queues s ∧
  ∀ i, (i < length (run_queues logs))%nat →
    run_queues logs !! i
    = queue_order s !! Z.to_nat ((rr_index s + Z.of_nat i) `mod` n_queues s).
Proof.
  intros Hreach Hn Hrun. apply reachable_wf in Hreach as Hwf.
  destruct (run_as_turns fuel quantum steps s s' logs Hwf Hn Hrun)
    as [[k Hk]|[-> ->]].
  - destruct (turns_visit_order quantum k s s' logs Hwf Hn Hk) as (Hrr & Hlen & Hvis).
    rewrite Hlen. by split.
  - simpl. destruct (wf_visited s Hwf Hn) as (_ & _ & _ & _ & _ & _ & _ & _ & Hr).
    destruct (wf_rr s Hwf) as [Hr0 _].
    split; [|intros; lia]. rewrite Z.add_0_r. symmetry. apply Z.mod_small. lia.
Qed.

Lemma run_visits_in_order_witness :
  let s := state_after two_queue_session in
  let s' := state_after (two_queue_session ++ [OpRun 2 (Some 1)]) in
  let logs := [EvRun 0 "A"; EvWork 2 "A" "A-001" 1; DisplayHead 2 (Some "B");
               DisplayMenu (sorted_menu REQUIRED_MENU);
               DisplayQueue "A" 1 2 false [("A-001", 1)];
               DisplayQueue "B" 0 1 false []] in
  rr_index s'
  = (rr_index s + Z.of_nat (length (run_queues logs))) `mod` n_queues s ∧
  ∀ i, (i < length (run_queues logs))%nat →
    run_queues logs !! i
    = queue_order s !! Z.to_nat ((rr_index s + Z.of_nat i) `mod` n_queues s).
Proof.
  cbv zeta.
  apply (run_visits_in_order 4 2 (Some 1) (state_after two_queue_session)).
  - apply reachable_state_after.
  - vm_compute; reflexivity.
  - vm_compute; reflexivity.
Defined.

(** ** A quantum that is not positive *)

Lemma turn_outcome_keeps_tasks quantum s s' l :
  quantum ≤ 0 → turn_outcome quantum s s' l →
  (∃ qid q, queues s !! qid = Some q ∧ _size q ≠ 0) →
  ∃ qid q, queues s' !! qid = Some q ∧ _size q ≠ 0.
Proof.
  intros Hq [qid d Hv Hf s1 Hd|qid q d Hv Hf Hqs Hsz Hd
            |qid q t ts q' d Hv Hf Hqs Hrep Hpt w t' ts' ev s2 Hrep' Hcap Hd]
    (k & qk & Hk & Hsk); simpl; try by exists k, qk.
  destruct (decide (qid = k)) as [<-|Hne].
  - exists qid, q'. rewrite lookup_insert_eq. split; [done|].
    rewrite (repr_size _ _ Hrep'). unfold ts'.
    unfold positive_burst in Hpt.
    destruct (Z.eqb_spec (remaining t') 0) as [Hz|Hnz].
    + unfold t', w in Hz. simpl in Hz. lia.
    + rewrite length_app. simpl. lia.
  - exists k, qk. by rewrite lookup_insert_ne.
Qed.

Lemma run_loop_stalls quantum fuel :
  quantum ≤ 0 →
  ∀ td s logs, wf s → (∃ qid q, queues s !! qid = Some q ∧ _size q ≠ 0) →
    run_loop fuel quantum None td s logs = OutOfFuel.
Proof.
  intros Hq. induction fuel as [|fuel IH]; intros td s logs Hwf Hinv; [done|].
  assert (Hn : 0 < n_queues s).
  { destruct Hinv as (qid & q & Hqs & _).
    assert (Hin : qid ∈ queue_order s) by (apply (wf_order s Hwf); eauto).
    apply list_elem_of_lookup in Hin as [p Hp]. apply lookup_lt_Some in Hp.
    unfold n_queues. lia. }
  destruct (turn_wf quantum s Hwf Hn) as (s1 & l1 & Ht & Ho & Hwf1).
  destruct (quiescent_wf s1 Hwf1) as (b & Hb & Hiff).
  rewrite (run_loop_open_step _ _ _ _ _ s1 l1 b Hn Ht Hb).
  pose proof (turn_outcome_keeps_tasks quantum s s1 l1 Hq Ho Hinv) as Hinv1.
  destruct b; [|by apply IH].
  exfalso. destruct Hinv1 as (qid & q & Hqs & Hsz).
  assert (Hl : load s1 = 0%nat) by by apply Hiff.
  unfold load in Hl. apply Nat.eq_add_0 in Hl as [Hl _].
  rewrite msum_zero in Hl. specialize (Hl qid q Hqs).
  destruct (wf_queues s1 Hwf1 qid q Hqs) as (ts & Hrep & Hpos).
  by apply (qload_zero q ts Hrep Hpos) in Hl.
Qed.

(** X12.  With a quantum of zero or less and at least one queued task, a
    run without step limit never returns: no task ever finishes, so the
    loop never finds all queues empty. *)
Theorem nonpositive_quantum_never_returns fuel quantum s qid q :
  reachable s → quantum ≤ 0 → queues s !! qid = Some q → QueueRR.len q ≠ 0 →
  run fuel quantum None s = OutOfFuel.
Proof.
  intros Hreach Hq Hqs Hlen. apply reachable_wf in Hreach as Hwf.
  assert (Hn : 0 < n_queues s).
  { assert (Hin : qid ∈ queue_order s) by (apply (wf_order s Hwf); eauto).
    apply list_elem_of_lookup in Hin as [p Hp]. apply lookup_lt_Some in Hp.
    unfold n_queues. lia. }
  rewrite run_enters_loop by done.
  apply run_loop_stalls; [done..|]. by exists qid, q.
Qed.

Lemma nonpositive_quantum_never_returns_witness :
  run 50 0 None (state_after two_queue_session) = OutOfFuel.
Proof.
  apply (nonpositive_quantum_never_returns 50 0 (state_after two_queue_session) "A"
           (QueueRR.mk "A" 2 [Some (mkTask "A-001" 3); None] 0 1)).
  - apply reachable_state_after.
  - lia.
  - vm_compute; reflexivity.
  - vm_compute. discriminate.
Defined.

(** ** The command-line driver *)





Lemma main_loop_blank parse_command py_int fuel pre raw post :
  Cli.rstrip_nl raw = "" →
  ∀ sched stdout,
    Cli.main_loop parse_command py_int fuel (pre ++ raw :: post) sched stdout
    = Cli.main_loop parse_command py_int fuel (pre ++ [raw]) sched stdout ∧
    ∀ s' out,
      Cli.main_loop parse_command py_int fuel (pre ++ [raw]) sched stdout
      = Ok (s', out) →
      last out = Some "Break time!".
Proof.
  intros Hblank. induction pre as [|l pre IH]; intros sched stdout; simpl.
  - rewrite Hblank. simpl. split; [done|].
    intros s' out [= <- <-]. by rewrite last_snoc.
  - destruct (String.eqb (Cli.rstrip_nl l) "").
    { split; [done|]. intros s' out [= <- <-]. by rewrite last_snoc. }
    destruct (parse_command (Cli.rstrip_nl l)) as [[cmd args]|]; [|by apply IH].
    destruct (Cli.dispatch py_int fuel cmd args sched) as [[[s1 logs] out1]|e1|];
      simpl; [apply IH | done | done].
Qed.

(** X14.  A blank line (one that is empty once its trailing newlines are
    stripped) ends the session: everything after it is ignored, and when
    the session returns the last thing printed is "Break time!". *)
Theorem blank_line_ends_session parse_command py_int fuel pre raw post :
  Cli.rstrip_nl raw = "" →
  Cli.main parse_command py_int fuel (pre ++ raw :: post)
  = Cli.main parse_command py_int fuel (pre ++ [raw]) ∧
  ∀ stdout,
    Cli.main parse_command py_int fuel (pre ++ raw :: post) = Ok stdout →
    last stdout = Some "Break time!".
Proof.
  intros Hblank. unfold Cli.main.
  destruct (main_loop_blank parse_command py_int fuel pre raw post Hblank
              Scheduler.init []) as [Heq Hlast].
  rewrite Heq. split; [done|]. intros stdout H.
  destruct (Cli.main_loop parse_command py_int fuel (pre ++ [raw]) Scheduler.init [])
    as [[s out]|e1|] eqn:Hm; try done.
  simpl in H. injection H as <-. by apply (Hlast s).
Qed.

Lemma blank_line_ends_session_witness :
  let parse := λ line : string,
    if String.eqb line "SKIP A" then Some ("SKIP", ["A"]) else None in
  let py_int := λ s : string, @None Z in
  let nl := String "010"%char EmptyString in
  Cli.main parse py_int 3 (["SKIP A"] ++ nl :: ["SKIP A"])
  = Cli.main parse py_int 3 (["SKIP A"] ++ [nl]) ∧
  ∀ stdout,
    Cli.main parse py_int 3 (["SKIP A"] ++ nl :: ["SKIP A"]) = Ok stdout →
    last stdout = Some "Break time!".
Proof.
  cbv zeta.
  apply (blank_line_ends_session
           (λ line : string,
              if String.eqb line "SKIP A" then Some ("SKIP", ["A"]) else None)
           (λ s : string, @None Z) 3 ["SKIP A"]
           (String "010"%char EmptyString) ["SKIP A"]).
  reflexivity.
Defined.

(** ** Task ids *)

Lemma digit_value_char x : (x < 10)%N → digit_value (pretty_N_char x) = x.
Proof.
  intros Hx.
  assert (x = 0 ∨ x = 1 ∨ x = 2 ∨ x = 3 ∨ x = 4 ∨ x = 5 ∨ x = 6 ∨ x = 7
          ∨ x = 8 ∨ x = 9)%N as H by lia.
  repeat (destruct H as [->|H]; [done|]). by subst.
Qed.

Lemma dec_from_pretty_go x :
  ∀ s, ∃ k, ∀ acc,
    dec_from acc (pretty_N_go x s) = dec_from (acc * 10 ^ k + x)%N s.
Proof.
  induction (N.lt_wf_0 x) as [x _ IH]. intros s.
  assert (x = 0 ∨ 0 < x)%N as [->|Hx] by lia.
  - exists 0%N. intros acc. rewrite pretty_N_go_0. f_equal. simpl. lia.
  - rewrite pretty_N_go_step by done.
    destruct (IH (x `div` 10)%N) with (s := String (pretty_N_char (x `mod` 10)) s)
      as [k Hk].
    { by apply N.div_lt. }
    exists (k + 1)%N. intros acc. rewrite Hk. simpl.
    rewrite digit_value_char by (apply N.mod_lt; lia). f_equal.
    rewrite N.pow_add_r. simpl.
    pose proof (N.div_mod x 10). lia.
Qed.

Lemma dec_from_pretty_N (x : N) : dec_from 0 (pretty x) = x.
Proof.
  unfold pretty, pretty_N. case_decide as Hx; [by subst|].
  destruct (dec_from_pretty_go x "") as [k Hk]. rewrite Hk. simpl. lia.
Qed.

Lemma dec_from_pretty_Z (z : Z) : 0 ≤ z → dec_from 0 (pretty z) = Z.to_N z.
Proof.
  intros Hz. destruct z as [|p|p]; [done| |lia].
  apply (dec_from_pretty_N (N.pos p)).
Qed.

Lemma dec_from_zeros k s : dec_from 0 (zeros k +:+ s) = dec_from 0 s.
Proof. induction k as [|k IH]; simpl; [done|]. exact IH. Qed.

Lemma dec_from_format_03d z : 0 ≤ z → dec_from 0 (format_03d z) = Z.to_N z.
Proof.
  intros Hz. unfold format_03d. destruct (Z.ltb_spec z 0); [lia|].
  unfold zfill. rewrite dec_from_zeros. by apply dec_from_pretty_Z.
Qed.

Lemma format_03d_inj c1 c2 :
  0 ≤ c1 → 0 ≤ c2 → format_03d c1 = format_03d c2 → c1 = c2.
Proof.
  intros H1 H2 Heq. apply (f_equal (dec_from 0)) in Heq.
  rewrite !dec_from_format_03d in Heq by done. lia.
Qed.

(** X15.  Distinct sequence numbers give distinct task ids: the
    zero-padded field of an id determines the (non-negative) counter it was
    built from, below and beyond 999 alike. *)
Theorem task_id_determines_counter qid c1 c2 :
  0 ≤ c1 → 0 ≤ c2 → id_of qid c1 = id_of qid c2 → c1 = c2.
Proof.
  intros H1 H2 Heq. unfold id_of in Heq.
  apply (inj (String.app qid)) in Heq. apply (inj (String.app "-")) in Heq.
  by apply format_03d_inj.
Qed.

Lemma task_id_determines_counter_witness : 7 = 7.
Proof.
  apply (task_id_determines_counter "A" 7 7); [lia | lia | reflexivity].
Defined.

Lemma ids_wf_init : ids_wf Scheduler.init.
Proof. intros qid q ts Hq. simpl in Hq. by rewrite lookup_empty in Hq. Qed.

Lemma ids_wf_create qid cap s s' logs :
  ids_wf s → create_queue qid cap s = Ok (s', logs) → ids_wf s'.
Proof.
  intros Hids H. destruct (Z.le_gt_cases cap 0) as [Hc|Hc].
  { unfold create_queue in H. by rewrite init_nonpos in H. }
  destruct (init_repr qid cap Hc) as (q0 & Hq0 & Hrep0 & _).
  unfold create_queue in H. rewrite Hq0 in H. simpl in H. injection H as <- _.
  intros k q ts Hq Hrep. simpl in *.
  destruct (decide (qid = k)) as [<-|Hne].
  - rewrite lookup_insert_eq in Hq. injection Hq as <-.
    rewrite lookup_insert_eq. rewrite (repr_unique _ _ _ Hrep Hrep0).
    exists 0, []. split_and!; try done; constructor.
  - rewrite lookup_insert_ne in Hq by done. rewrite lookup_insert_ne by done.
    by apply (Hids k q ts).
Qed.

Lemma ids_wf_counter s qid c :
  ids_wf s → id_counters s !! qid = Some c →
  ids_wf (set_id_counters s (<[qid := c + 1]> (id_counters s))).
Proof.
  intros Hids Hc k q ts Hq Hrep. simpl in *.
  destruct (Hids k q ts Hq Hrep) as (c0 & cs & Hc0 & Hnn & Hts & Hnd & Hb).
  destruct (decide (qid = k)) as [<-|Hne].
  - rewrite lookup_insert_eq. rewrite Hc in Hc0. injection Hc0 as <-.
    exists (c + 1), cs. split_and!; try done; [lia|].
    eapply Forall_impl; [exact Hb|]. simpl. intros n Hn. lia.
  - rewrite lookup_insert_ne by done. by exists c0, cs.
Qed.

Lemma ids_wf_enqueue qid item s s' logs out :
  wf s → ids_wf s → Scheduler.enqueue qid item s = Ok (s', logs, out) → ids_wf s'.
Proof.
  intros Hwf Hids H.
  destruct (_menu s !! item) as [burst|] eqn:Hm; cycle 1.
  { rewrite enqueue_unknown_item in H by done. by injection H as <- _ _. }
  destruct (queues s !! qid) as [q|] eqn:Hq; cycle 1.
  { rewrite (enqueue_unknown_queue _ _ _ burst) in H by done. by injection H as <- _ _. }
  destruct (proj1 (wf_counters s Hwf qid)) as [c Hc]; [by eauto|].
  destruct (wf_queues s Hwf qid q Hq) as (ts & Hrep & Hpos).
  pose proof (ids_wf_counter s qid c Hids Hc) as Hids1.
  destruct (Z.le_gt_cases (capacity q) (_size q)) as [Hfull|Hfree].
  - rewrite (enqueue_at_capacity _ _ _ burst q c) in H by done.
    by injection H as <- _ _.
  - rewrite (repr_size _ _ Hrep) in Hfree.
    destruct (enqueue_accepted qid item s burst q ts c Hm Hq Hc Hrep Hfree)
      as (q' & _ & Hrep' & _ & Heq).
    rewrite Heq in H. injection H as <- _ _.
    intros k qk tsk Hqk Hrepk. simpl in *.
    destruct (decide (qid = k)) as [<-|Hne].
    + rewrite lookup_insert_eq in Hqk. injection Hqk as <-.
      rewrite lookup_insert_eq. rewrite (repr_unique _ _ _ Hrepk Hrep').
      destruct (Hids qid q ts Hq Hrep) as (c0 & cs & Hc0 & Hnn & Hts & Hnd & Hb).
      rewrite Hc in Hc0. injection Hc0 as <-.
      exists (c + 1), (cs ++ [c + 1]). split_and!; try done.
      * lia.
      * rewrite !fmap_app, Hts. done.
      * apply NoDup_app. split_and!; [done| |apply NoDup_singleton].
        intros n Hn Hn'. apply list_elem_of_singleton in Hn'. subst n.
        rewrite Forall_forall in Hb. specialize (Hb _ Hn). lia.
      * apply Forall_app. split.
        -- eapply Forall_impl; [exact Hb|]. simpl. intros n Hn. lia.
        -- constructor; [lia | constructor].
    + rewrite lookup_insert_ne in Hqk by done.
      by apply (Hids1 k qk tsk).
Qed.

Lemma ids_wf_turn quantum s s' l :
  wf s → turn_outcome quantum s s' l → ids_wf s → ids_wf s'.
Proof.
  intros Hwf [qid d Hv Hf s1 Hd|qid q d Hv Hf Hqs Hsz Hd
             |qid q t ts q' d Hv Hf Hqs Hrep Hpt w t' ts' ev s2 Hrep' Hcap Hd]
    Hids; try exact Hids.
  intros k qk tsk Hqk Hrepk. simpl in *.
  destruct (decide (qid = k)) as [<-|Hne].
  - rewrite lookup_insert_eq in Hqk. injection Hqk as <-.
    rewrite (repr_unique _ _ _ Hrepk Hrep').
    destruct (Hids qid q (t :: ts) Hqs Hrep) as (c & cs & Hc & Hnn & Hts & Hnd & Hb).
    destruct cs as [|c0 cs]; [done|]. rewrite !fmap_cons in Hts.
    injection Hts as Ht0 Hts.
    apply NoDup_cons in Hnd as [Hnin Hnd]. apply Forall_cons in Hb as [Hb0 Hb].
    destruct (remaining t - w =? 0).
    + exists c, cs. by split_and!.
    + exists c, (cs ++ [c0]). split_and!; try done.
      * subst ts'. rewrite !fmap_app, Hts. simpl. by rewrite Ht0.
      * apply NoDup_app. split_and!; [done| |apply NoDup_singleton].
        intros n Hn Hn'. apply list_elem_of_singleton in Hn'. by subst n.
      * apply Forall_app. split; [done|]. by constructor.
  - rewrite lookup_insert_ne in Hqk by done. by apply (Hids k qk tsk).
Qed.

Lemma ids_wf_exec fuel o s s' logs :
  wf s → ids_wf s → exec fuel o s = Ok (s', logs) → ids_wf s'.
Proof.
  intros Hwf Hids H. destruct o as [qid cap|qid item|qid|quantum steps|];
    simpl in H.
  - by apply (ids_wf_create qid cap s s' logs).
  - destruct (Scheduler.enqueue qid item s) as [[[s1 l1] out]| |] eqn:He; try done.
    simpl in H. injection H as <- _. by apply (ids_wf_enqueue qid item s s1 l1 out).
  - unfold mark_skip in H. destruct (skip_flags s !! qid); by injection H as <- _.
  - apply (run_relate (λ a b, ids_wf a → ids_wf b) fuel quantum steps)
      with s logs; try done.
    + intros a b c Hab Hbc Ha. by apply Hbc, Hab.
    + intros a b l Hwfa Ho. by apply (ids_wf_turn quantum a b l).
  - destruct (display_wf s Hwf) as (ql & Hd & _). rewrite Hd in H.
    by injection H as <- _.
Qed.

Lemma reachable_ids_wf s : reachable s → ids_wf s.
Proof.
  induction 1 as [|s o fuel s' logs Hr IH _ Hex]; [apply ids_wf_init|].
  apply (ids_wf_exec fuel o s s' logs); [by apply reachable_by_wf in Hr | done..].
Qed.

(** X16.  In every reachable state the tasks queued in one queue have
    pairwise distinct ids, each of the form "[queue id]-[sequence number]"
    with a sequence number between 1 and the queue's current counter. *)
Theorem queued_task_ids_unique s qid q ts :
  reachable s → queues s !! qid = Some q → QueueRR.tasks_list q = Ok ts →
  NoDup (task_id <$> ts) ∧
  ∃ c cs, id_counters s !! qid = Some c ∧
          task_id <$> ts = id_of qid <$> cs ∧ Forall (λ n, 1 ≤ n ≤ c) cs.
Proof.
  intros Hreach Hq Hts. apply reachable_wf in Hreach as Hwf.
  destruct (wf_queues s Hwf qid q Hq) as (ts0 & Hrep & _).
  rewrite (tasks_list_repr q ts0 Hrep) in Hts. injection Hts as <-.
  destruct (reachable_ids_wf s Hreach qid q ts0 Hq Hrep)
    as (c & cs & Hc & Hnn & Hids & Hnd & Hb).
  split; [|by exists c, cs].
  rewrite Hids. apply NoDup_fmap_2_strong; [|done].
  intros c1 c2 H1 H2 Heq. rewrite Forall_forall in Hb.
  apply Hb in H1. apply Hb in H2. unfold id_of in Heq.
  apply (inj (String.app qid)) in Heq. apply (inj (String.app "-")) in Heq.
  apply format_03d_inj; [lia | lia | done].
Qed.

Lemma queued_task_ids_unique_witness :
  let s := state_after [OpCreate "A" 2; OpEnqueue "A" "latte"; OpEnqueue "A" "tea";
                        OpRun 1 (Some 1)] in
  let ts := [mkTask "A-002" 1; mkTask "A-001" 2] in
  NoDup (task_id <$> ts) ∧
  ∃ c cs, id_counters s !! "A" = Some c ∧
          task_id <$> ts = id_of "A" <$> cs ∧ Forall (λ n, 1 ≤ n ≤ c) cs.
Proof.
  apply (queued_task_ids_unique
           (state_after [OpCreate "A" 2; OpEnqueue "A" "latte"; OpEnqueue "A" "tea";
                         OpRun 1 (Some 1)])
           "A"
           (QueueRR.mk "A" 2 [Some (mkTask "A-001" 2); Some (mkTask "A-002" 1)] 1 2)).
  - apply reachable_state_after.
  - vm_compute; reflexivity.
  - vm_compute; reflexivity.
Defined.
